(** * NaTa_bed.hpp: the [Bed] record of biovoltron::format

    A shallow embedding of the class template [Bed<TUPLETYPE>] and a
    verification of its text conversion, ordering and stream protocol.

    - [std::string] is a [list ascii] (a sequence of 8-bit [char]s,
      embedded NUL characters allowed);
    - [int32_t] is a [Z] kept within [INT32_MIN .. INT32_MAX];
    - the template parameter [TUPLETYPE] is a schema, a [list ftype];
      the tuple [data] is a [list value] typed by the schema;
    - C++ exceptions and undefined behaviour are explicit outcomes;
    - [std::istream] is its unread characters and its state bits,
      [std::ostream] the characters written so far. *)

From Stdlib Require Import ZArith Ascii String Lia.
From stdpp Require Import base option list.

Abbreviation cstring := (list ascii).

(** String literals of the examples. *)
Definition lit (s : string) : cstring := list_ascii_of_string s.

Definition TAB : ascii := "009"%char.
Definition NL : ascii := "010"%char.
Definition NUL : ascii := "000"%char.

(** ** Schema and values *)

(** The element types that [to_tuple] dispatches on with
    [std::is_same]: [std::string], [int32_t] and [char].  (The last
    [else] branch of [to_tuple] is taken by no other element type of a
    schema made of these three.) *)
Inductive ftype : Set := TString | TInt32 | TChar.

Inductive value : Set :=
  | VString (s : cstring)
  | VInt32 (n : Z)
  | VChar (c : ascii).

Definition INT32_MIN : Z := -2147483648.
Definition INT32_MAX : Z := 2147483647.

Definition in_int32 (n : Z) : bool :=
  (INT32_MIN <=? n)%Z && (n <=? INT32_MAX)%Z.

Definition has_type (v : value) (t : ftype) : bool :=
  match v, t with
  | VString _, TString => true
  | VInt32 n, TInt32 => in_int32 n
  | VChar _, TChar => true
  | _, _ => false
  end.

(** [data] is an object of type [TUPLETYPE]. *)
Fixpoint well_typed (sch : list ftype) (data : list value) : bool :=
  match sch, data with
  | [], [] => true
  | t :: sch', v :: data' => has_type v t && well_typed sch' data'
  | _, _ => false
  end.

(** Value initialisation, [Bed() : data()]. *)
Definition default_value (t : ftype) : value :=
  match t with
  | TString => VString []
  | TInt32 => VInt32 0
  | TChar => VChar NUL
  end.

Definition Bed_default (sch : list ftype) : list value :=
  map default_value sch.

(** ** Outcomes *)

(** The exceptions [std::stoi] throws. *)
Inductive exn : Set := invalid_argument | out_of_range.

Inductive result (A : Type) : Type :=
  | Ok (a : A)
  | Throw (e : exn).
Arguments Ok {A} a.
Arguments Throw {A} e.

(** How a call that mutates its [Bed&] argument ends: it returns, an
    exception leaves it, or it indexes a vector out of range, which has
    no defined behaviour. *)
Inductive status : Set :=
  | Done
  | Threw (e : exn)
  | Undefined.

(** ** [std::stoi] *)

(** [isspace] in the "C" locale. *)
Definition isspace (c : ascii) : bool :=
  let n := nat_of_ascii c in
  (n =? 32) || ((9 <=? n) && (n <=? 13)).

Definition digit_of (c : ascii) : option Z :=
  let n := Z.of_nat (nat_of_ascii c) in
  if (48 <=? n)%Z && (n <=? 57)%Z then Some (n - 48)%Z else None.

Fixpoint skip_spaces (s : cstring) : cstring :=
  match s with
  | c :: r => if isspace c then skip_spaces r else s
  | [] => []
  end.

(** The digit loop of [strtol] in base 10; it stops at the first
    character that is not a digit (the terminating NUL of [c_str()]
    included). *)
Fixpoint read_digits (s : cstring) (acc : Z) : Z :=
  match s with
  | c :: r =>
      match digit_of c with
      | Some d => read_digits r (acc * 10 + d)%Z
      | None => acc
      end
  | [] => acc
  end.

(** No digit at all: no conversion is performed. *)
Definition strtol_digits (s : cstring) : option Z :=
  match s with
  | c :: _ =>
      match digit_of c with
      | Some _ => Some (read_digits s 0)
      | None => None
      end
  | [] => None
  end.

Definition strtol_sign (s : cstring) : bool * cstring :=
  match s with
  | c :: r =>
      if Ascii.eqb c "-" then (true, r)
      else if Ascii.eqb c "+" then (false, r)
      else (false, s)
  | [] => (false, s)
  end.

(** [std::stoi(str)]: [strtol] on [str.c_str()], [invalid_argument]
    when nothing was converted, [out_of_range] when the value does not
    fit an [int].  The position of the first unconverted character is
    not asked for ([pos] defaults to null) and so never looked at. *)
Definition stoi (str : cstring) : result Z :=
  let '(neg, s) := strtol_sign (skip_spaces str) in
  match strtol_digits s with
  | None => Throw invalid_argument
  | Some n =>
      let v := if neg then (- n)%Z else n in
      if in_int32 v then Ok v else Throw out_of_range
  end.

(** ** [boost::convert<std::string>] with [boost::cnv::lexical_cast] *)

Definition digit_char (d : Z) : ascii := ascii_of_nat (Z.to_nat (48 + d)).

(** The loop that writes an unsigned number backwards from the end of
    the buffer: [do { *--finish = '0' + n % 10; n /= 10; } while (n);]
    A 32-bit number has at most 10 digits. *)
Fixpoint lcast_put_unsigned (fuel : nat) (n : Z) (finish : cstring) : cstring :=
  match fuel with
  | O => finish
  | S fuel' =>
      let finish' := digit_char (n mod 10) :: finish in
      let n' := (n / 10)%Z in
      if (n' =? 0)%Z then finish' else lcast_put_unsigned fuel' n' finish'
  end.

Definition lexical_cast_int (n : Z) : cstring :=
  if (n <? 0)%Z then "-"%char :: lcast_put_unsigned 10 (- n) []
  else lcast_put_unsigned 10 n [].

Definition lexical_cast (v : value) : cstring :=
  match v with
  | VString s => s
  | VInt32 n => lexical_cast_int n
  | VChar c => [c]
  end.

(** ** Formatting: [get_string] and [to_string] *)

(** [std::string::pop_back]; on an empty string it has no defined
    behaviour ([None]). *)
Definition pop_back (s : cstring) : option cstring :=
  match s with
  | [] => None
  | _ :: _ => Some (removelast s)
  end.

(** [get_string<N>(rhs)], with [fields] the elements of [data] from
    position [N] on: each appends its text and a tab; past the last
    one the final character of [rhs] is dropped. *)
Fixpoint get_string (fields : list value) (rhs : cstring) : option cstring :=
  match fields with
  | [] => pop_back rhs
  | v :: fields' => get_string fields' (rhs ++ (lexical_cast v ++ [TAB]))
  end.

Definition to_string (data : list value) : option cstring :=
  get_string data [].

(** ** Output: [operator<<] and [dump] on a [std::ostream] *)

Definition ostream_put (rhs : cstring) (s : cstring) : cstring := rhs ++ s.

Definition write_one (rhs : cstring) (i : list value) : option cstring :=
  match to_string i with
  | Some t => Some (ostream_put rhs t)
  | None => None
  end.

(** The [for (auto& i : c)] loop of [dump], on the local string [s]. *)
Fixpoint dump_loop (c : list (list value)) (s : cstring) : option cstring :=
  match c with
  | [] => Some s
  | i :: c' =>
      match to_string i with
      | Some t => dump_loop c' (s ++ (t ++ [NL]))
      | None => None
      end
  end.

Definition dump (rhs : cstring) (c : list (list value)) : option cstring :=
  match dump_loop c [] with
  | Some s => Some (ostream_put rhs s)
  | None => None
  end.

(** ** Parsing: [to_tuple] *)

(** The body of one step of [to_tuple<N>]: the [if constexpr] chain on
    the element type.  [rhs[N][0]] on an empty token is the NUL that
    [operator[]] refers to at position [size()]. *)
Definition convert (t : ftype) (tok : cstring) : result value :=
  match t with
  | TInt32 =>
      match stoi tok with
      | Ok n => Ok (VInt32 n)
      | Throw e => Throw e
      end
  | TString => Ok (VString tok)
  | TChar => Ok (VChar (hd NUL tok))
  end.

(** [to_tuple<N>(rhs, i)], with [tys] the element types from position
    [N] on.  [rhs[N]] is not checked against [rhs.size()].  The
    assignment [std::get<N>(i.data) = ...] is an update in place, which
    by the typing of [data] is always in range. *)
Fixpoint to_tuple_from (tys : list ftype) (N : nat) (rhs : list cstring)
    (data : list value) : list value * status :=
  match tys with
  | [] => (data, Done)
  | t :: tys' =>
      match rhs !! N with
      | None => (data, Undefined)
      | Some tok =>
          match convert t tok with
          | Ok v => to_tuple_from tys' (S N) rhs (<[N:=v]> data)
          | Throw e => (data, Threw e)
          end
      end
  end.

Definition to_tuple (sch : list ftype) (rhs : list cstring)
    (data : list value) : list value * status :=
  to_tuple_from sch 0 rhs data.

(** ** Input: [get_obj] on a [std::istream] *)

Definition is_any_of (set : cstring) (c : ascii) : bool :=
  existsb (Ascii.eqb c) set.

(** [boost::split(v, in, pred)] with the default
    [token_compress_off]: every separator ends a token, so a string
    with [n] separators gives [n + 1] tokens, empty ones included. *)
Fixpoint split (pred : ascii -> bool) (input : cstring) : list cstring :=
  match input with
  | [] => [[]]
  | c :: r =>
      if pred c then [] :: split pred r
      else
        match split pred r with
        | tok :: toks => (c :: tok) :: toks
        | [] => [[c]]
        end
  end.

(** The stream's unread characters and its [eofbit] and [failbit];
    reading from memory never sets [badbit], and no exception mask is
    set on the stream. *)
Record istream : Set := mk_istream {
  unread : cstring;
  eofbit : bool;
  failbit : bool
}.

Definition good (s : istream) : bool := negb (eofbit s) && negb (failbit s).

(** Characters up to the first newline, and what follows it; [None]
    when the characters run out first. *)
Fixpoint read_line (s : cstring) : cstring * option cstring :=
  match s with
  | [] => ([], None)
  | c :: r =>
      if Ascii.eqb c NL then ([], Some r)
      else let '(line, rest) := read_line r in (c :: line, rest)
  end.

(** [std::getline(rhs, in)] and the test of the stream it returns:
    [Some in] when [failbit] is not set afterwards. *)
Definition getline (rhs : istream) : istream * option cstring :=
  if good rhs then
    match read_line (unread rhs) with
    | (line, Some rest) => (mk_istream rest false false, Some line)
    | ([], None) => (mk_istream [] true true, None)
    | (line, None) => (mk_istream [] true false, Some line)
    end
  else (mk_istream (unread rhs) (eofbit rhs) true, None).

Definition get_obj (sch : list ftype) (rhs : istream) (i : list value)
    : istream * list value * status :=
  match getline rhs with
  | (rhs', Some in_) =>
      let v := split (is_any_of [TAB]) in_ in
      let '(i', st) := to_tuple sch v i in
      (rhs', i', st)
  | (rhs', None) => (rhs', i, Done)
  end.

(** ** Ordering: [operator<] *)

Definition uchar (c : ascii) : Z := Z.of_nat (nat_of_ascii c).

(** [std::string::compare]: [char_traits<char>] compares characters as
    [unsigned char]; a proper prefix is smaller. *)
Fixpoint string_compare (s1 s2 : cstring) : comparison :=
  match s1, s2 with
  | [], [] => Eq
  | [], _ :: _ => Lt
  | _ :: _, [] => Gt
  | c1 :: r1, c2 :: r2 =>
      match (uchar c1 ?= uchar c2)%Z with
      | Eq => string_compare r1 r2
      | o => o
      end
  end.

Definition string_lt (s1 s2 : cstring) : bool :=
  match string_compare s1 s2 with
  | Lt => true
  | _ => false
  end.

Section Ordering.

(** Whether plain [char] is a signed type is left to the platform. *)
Variable char_signed : bool.

Definition char_value (c : ascii) : Z :=
  if char_signed && (128 <=? uchar c)%Z then (uchar c - 256)%Z else uchar c.

Definition value_lt (x y : value) : bool :=
  match x, y with
  | VString a, VString b => string_lt a b
  | VInt32 a, VInt32 b => (a <? b)%Z
  | VChar a, VChar b => (char_value a <? char_value b)%Z
  | _, _ => false
  end.

(** [operator<] of [std::tuple]: at each index, [t_i < u_i], or else
    not [u_i < t_i] and the rest decides. *)
Fixpoint tuple_less (t u : list value) : bool :=
  match t, u with
  | x :: t', y :: u' => value_lt x y || (negb (value_lt y x) && tuple_less t' u')
  | _, _ => false
  end.

Definition Bed_lt (b1 b2 : list value) : bool := tuple_less b1 b2.

(** The order in the specification's words: the fields are compared
    from left to right, and the first position where the records
    differ decides. *)
Definition lex_lt (a b : list value) : Prop :=
  exists (k : nat) (x y : value),
    take k a = take k b /\ a !! k = Some x /\ b !! k = Some y
    /\ value_lt x y = true.

End Ordering.

(** ** Decimal integers, in the specification's words *)

Definition is_digit (c : ascii) : bool :=
  match digit_of c with
  | Some _ => true
  | None => false
  end.

Definition is_sign_char (c : ascii) : bool := Ascii.eqb c "-" || Ascii.eqb c "+".

(** One digit at least, and digits only. *)
Definition all_digits (s : cstring) : bool :=
  match s with
  | [] => false
  | _ :: _ => forallb is_digit s
  end.

(** A decimal integer with an optional sign, and nothing else. *)
Definition valid_decimal (tok : cstring) : bool :=
  match tok with
  | [] => false
  | c :: r => if is_sign_char c then all_digits r else all_digits tok
  end.

Definition dec_value (ds : cstring) : Z :=
  fold_left (fun acc c => (acc * 10 + default 0 (digit_of c))%Z) ds 0%Z.

Definition is_sign (sgn : cstring) : bool :=
  match sgn with
  | [] => true
  | [c] => is_sign_char c
  | _ => false
  end.

Definition signed (sgn : cstring) (n : Z) : Z :=
  match sgn with
  | c :: _ => if Ascii.eqb c "-" then (- n)%Z else n
  | [] => n
  end.

Definition starts_with_digit (s : cstring) : bool :=
  match s with
  | c :: _ => is_digit c
  | [] => false
  end.

(** A token that starts with a decimal integer: white space [ws], an
    optional sign [sgn], the digits [ds], and whatever follows them,
    [rest]. *)
Definition leading_integer (ws sgn ds rest : cstring) : bool :=
  forallb isspace ws && is_sign sgn && all_digits ds
  && negb (starts_with_digit rest).

(** The longest prefix of [s] whose characters satisfy [p], and what is
    left of [s]. *)
Fixpoint span (p : ascii -> bool) (s : cstring) : cstring * cstring :=
  match s with
  | [] => ([], [])
  | c :: r =>
      if p c then let '(a, b) := span p r in (c :: a, b) else ([], s)
  end.

(** ** Field access and stream operators *)

(** [get_data<N>()]: a copy of [std::get<N>(data)].  An index that the
    schema does not have is refused by the compiler ([None]). *)
Definition get_data (N : nat) (data : list value) : option value := data !! N.

(** [operator>>]: [get_obj], and the stream is returned. *)
Definition read_one (sch : list ftype) (rhs : istream) (i : list value)
    : istream * list value * status :=
  get_obj sch rhs i.

Definition is_nl (c : ascii) : bool := Ascii.eqb c NL.

Definition no_nl (s : cstring) : bool := forallb (fun c => negb (is_nl c)) s.

(** No newline inside the text of any field. *)
Definition nl_free (data : list value) : bool :=
  forallb (fun v => no_nl (lexical_cast v)) data.

Definition count_nl (s : cstring) : nat := length (List.filter is_nl s).

Definition is_text (t : ftype) : bool :=
  match t with
  | TString => true
  | _ => false
  end.

(** ** The canonical schema and a few runs *)

Definition canonical : list ftype := [TString; TInt32; TInt32].

(** The values [to_tuple<N>] has bound when it stops, and how it
    stops: the walk over the positions, without the record. *)
Fixpoint convert_all (tys : list ftype) (N : nat) (rhs : list cstring)
    : list value * status :=
  match tys with
  | [] => ([], Done)
  | t :: tys' =>
      match rhs !! N with
      | None => ([], Undefined)
      | Some tok =>
          match convert t tok with
          | Ok v => let '(vs, st) := convert_all tys' (S N) rhs in (v :: vs, st)
          | Throw e => ([], Threw e)
          end
      end
  end.

Definition is_tab (c : ascii) : bool := is_any_of [TAB] c.

Definition count_tabs (s : cstring) : nat := length (List.filter is_tab s).

(** What [get_string] appends to [rhs] in all. *)
Definition field_texts (fields : list value) : cstring :=
  concat (map (fun v => lexical_cast v ++ [TAB]) fields).

(** The text the specification asks of [format]: the fields' texts
    with one separator between neighbours. *)
Fixpoint join (sep : ascii) (toks : list cstring) : cstring :=
  match toks with
  | [] => []
  | [t] => t
  | t :: rest => t ++ sep :: join sep rest
  end.

Definition no_tab (s : cstring) : bool := forallb (fun c => negb (is_tab c)) s.

(** No tab inside the text of any field. *)
Definition tab_free (data : list value) : bool :=
  forallb (fun v => no_tab (lexical_cast v)) data.

Example stoi_12a : stoi (lit "12a") = Ok 12%Z.
Proof. reflexivity. Qed.
Example stoi_sp : stoi (lit "  +0012 3") = Ok 12%Z.
Proof. reflexivity. Qed.
Example stoi_x : stoi (lit "-x") = Throw invalid_argument.
Proof. reflexivity. Qed.
Example lc_min : lexical_cast_int INT32_MIN = lit "-2147483648".
Proof. reflexivity. Qed.
Example lc_0 : lexical_cast_int 0 = lit "0".
Proof. reflexivity. Qed.
Example split_ex : split (is_any_of [TAB]) (lit "a" ++ [TAB; TAB] ++ lit "b") = [lit "a"; []; lit "b"].
Proof. reflexivity. Qed.
Example fmt_ex : to_string [VString (lit "chr1"); VInt32 100; VInt32 200]
  = Some (lit "chr1" ++ [TAB] ++ lit "100" ++ [TAB] ++ lit "200").
Proof. reflexivity. Qed.

(** * Decimal text of an [int32_t] and back *)

Ltac digit_cases d :=
  let H := fresh in
  assert (H : (d = 0 \/ d = 1 \/ d = 2 \/ d = 3 \/ d = 4 \/ d = 5 \/ d = 6
               \/ d = 7 \/ d = 8 \/ d = 9)%Z) by lia;
  repeat (destruct H as [H | H]); subst d; try reflexivity.

Lemma digit_of_digit_char d : (0 <= d < 10)%Z -> digit_of (digit_char d) = Some d.
Proof. intros Hd. digit_cases d. Qed.

Lemma isspace_digit_char d : (0 <= d < 10)%Z -> isspace (digit_char d) = false.
Proof. intros Hd. digit_cases d. Qed.

Lemma strtol_sign_digit_char d r :
  (0 <= d < 10)%Z -> strtol_sign (digit_char d :: r) = (false, digit_char d :: r).
Proof. intros Hd. digit_cases d. Qed.

(** Reading back what the digit loop wrote continues with the number
    appended to the accumulator. *)
Lemma read_digits_put fuel : forall n finish,
  (0 <= n < 10 ^ Z.of_nat fuel)%Z ->
  exists k : Z, (0 <= k)%Z /\ forall acc,
    read_digits (lcast_put_unsigned fuel n finish) acc
    = read_digits finish (acc * 10 ^ k + n)%Z.
Proof.
  induction fuel as [|fuel IH]; intros n finish Hn.
  - exists 0%Z. split; [lia|]. intros acc. simpl in *.
    f_equal. lia.
  - pose proof (Z.div_mod n 10 ltac:(lia)) as Hdm.
    pose proof (Z.mod_pos_bound n 10 ltac:(lia)) as Hm.
    cbn [lcast_put_unsigned].
    destruct (Z.eqb_spec (n / 10) 0) as [Hq | Hq].
    + exists 1%Z. split; [lia|]. intros acc.
      cbn [read_digits]. rewrite digit_of_digit_char by lia.
      f_equal. lia.
    + destruct (IH (n / 10)%Z (digit_char (n mod 10) :: finish)) as (k & Hk & IHk).
      { rewrite Nat2Z.inj_succ, Z.pow_succ_r in Hn by lia.
        split; [apply Z.div_pos; lia|].
        apply Z.div_lt_upper_bound; lia. }
      exists (Z.succ k). split; [lia|]. intros acc.
      rewrite IHk. cbn [read_digits]. rewrite digit_of_digit_char by lia.
      f_equal. rewrite Z.pow_succ_r by lia. lia.
Qed.

Lemma put_head_digit fuel : forall n d r,
  (0 <= d < 10)%Z ->
  exists d' r', lcast_put_unsigned fuel n (digit_char d :: r) = digit_char d' :: r'
                /\ (0 <= d' < 10)%Z.
Proof.
  induction fuel as [|fuel IH]; intros n d r Hd; cbn [lcast_put_unsigned].
  - eauto.
  - pose proof (Z.mod_pos_bound n 10 ltac:(lia)).
    destruct (n / 10 =? 0)%Z; [eauto|]. apply IH; lia.
Qed.

Lemma put_head_digit_S fuel n finish :
  exists d r, lcast_put_unsigned (S fuel) n finish = digit_char d :: r
              /\ (0 <= d < 10)%Z.
Proof.
  cbn [lcast_put_unsigned].
  pose proof (Z.mod_pos_bound n 10 ltac:(lia)).
  destruct (n / 10 =? 0)%Z; [eauto|]. apply put_head_digit; lia.
Qed.

Lemma strtol_digits_head s d r :
  s = digit_char d :: r -> (0 <= d < 10)%Z ->
  strtol_digits s = Some (read_digits s 0).
Proof.
  intros -> Hd. unfold strtol_digits.
  rewrite digit_of_digit_char by lia. reflexivity.
Qed.

Lemma strtol_digits_put n :
  (0 <= n < 10 ^ 10)%Z -> strtol_digits (lcast_put_unsigned 10 n []) = Some n.
Proof.
  intros Hn.
  destruct (read_digits_put 10 n [] Hn) as (k & _ & Hk).
  destruct (put_head_digit_S 9 n []) as (d & r & Hd & Hr).
  rewrite (strtol_digits_head _ d r Hd Hr), Hk. reflexivity.
Qed.

Lemma in_int32_spec n : in_int32 n = true <-> (INT32_MIN <= n <= INT32_MAX)%Z.
Proof. unfold in_int32. rewrite andb_true_iff, !Z.leb_le. tauto. Qed.

Lemma stoi_lexical_cast_int n :
  in_int32 n = true -> stoi (lexical_cast_int n) = Ok n.
Proof.
  intros Hn. pose proof Hn as Hr. apply in_int32_spec in Hr.
  unfold INT32_MIN, INT32_MAX in Hr.
  unfold lexical_cast_int, stoi.
  destruct (Z.ltb_spec n 0) as [Hneg | Hpos].
  - cbn [skip_spaces isspace]. change (isspace "-") with false. cbn iota.
    change (strtol_sign ("-"%char :: ?x)) with (true, x).
    cbn iota. rewrite strtol_digits_put by lia.
    rewrite Z.opp_involutive, Hn. reflexivity.
  - destruct (put_head_digit_S 9 n []) as (d & r & Hd & Hdr).
    pose proof (strtol_digits_put n ltac:(lia)) as Hs.
    rewrite Hd in *. cbn [skip_spaces]. rewrite isspace_digit_char by lia.
    rewrite strtol_sign_digit_char by lia. rewrite Hs, Hn. reflexivity.
Qed.

(** * Formatting *)

Lemma get_string_field_texts fields : forall rhs,
  get_string fields rhs = pop_back (rhs ++ field_texts fields).
Proof.
  induction fields as [|v fields IH]; intros rhs; cbn [get_string].
  - unfold field_texts. simpl. by rewrite app_nil_r.
  - rewrite IH. unfold field_texts. cbn [map concat].
    by rewrite <- !app_assoc.
Qed.

Lemma field_texts_join v fields :
  field_texts (v :: fields) = join TAB (map lexical_cast (v :: fields)) ++ [TAB].
Proof.
  revert v. induction fields as [|w fields IH]; intros v.
  - unfold field_texts. simpl. by rewrite app_nil_r.
  - change (field_texts (v :: w :: fields))
      with ((lexical_cast v ++ [TAB]) ++ field_texts (w :: fields)).
    rewrite IH. cbn [map join]. by rewrite <- !app_assoc.
Qed.

Lemma pop_back_snoc (s : cstring) c : pop_back (s ++ [c]) = Some s.
Proof.
  unfold pop_back. rewrite removelast_last.
  destruct s; reflexivity.
Qed.

Lemma to_string_join data :
  data <> [] -> to_string data = Some (join TAB (map lexical_cast data)).
Proof.
  destruct data as [|v data]; [done|]. intros _.
  unfold to_string. rewrite get_string_field_texts, field_texts_join.
  apply pop_back_snoc.
Qed.

Lemma to_string_nil : to_string [] = None.
Proof. reflexivity. Qed.

(** * Splitting *)

Lemma split_cons_nosep pred c s :
  pred c = false ->
  exists tok toks, split pred s = tok :: toks /\ split pred (c :: s) = (c :: tok) :: toks.
Proof.
  intros Hc. cbn [split]. rewrite Hc.
  destruct s as [|d s].
  - by exists [], [].
  - cbn [split]. destruct (pred d).
    + by eexists _, _.
    + destruct (split pred s); by eexists _, _.
Qed.

Lemma split_not_nil pred s : split pred s <> [].
Proof.
  destruct s as [|c s]; cbn [split]; [done|].
  destruct (pred c); [done|]. by destruct (split pred s).
Qed.

Lemma split_app_sep pred tok sep r :
  forallb (fun c => negb (pred c)) tok = true -> pred sep = true ->
  split pred (tok ++ sep :: r) = tok :: split pred r.
Proof.
  intros Htok Hsep. induction tok as [|c tok IH].
  - cbn [app split]. by rewrite Hsep.
  - cbn [forallb] in Htok. apply andb_true_iff in Htok as [Hc Htok].
    apply negb_true_iff in Hc.
    change ((c :: tok) ++ sep :: r) with (c :: (tok ++ sep :: r)).
    cbn [split]. rewrite Hc, (IH Htok). reflexivity.
Qed.

Lemma split_nosep pred tok :
  forallb (fun c => negb (pred c)) tok = true -> split pred tok = [tok].
Proof.
  induction tok as [|c tok IH]; intros Htok; [done|].
  cbn [forallb] in Htok. apply andb_true_iff in Htok as [Hc Htok].
  apply negb_true_iff in Hc. cbn [split]. by rewrite Hc, (IH Htok).
Qed.

Lemma split_join toks :
  toks <> [] -> forallb no_tab toks = true ->
  split is_tab (join TAB toks) = toks.
Proof.
  induction toks as [|t toks IH]; [done|]. intros _ Hall.
  cbn [forallb] in Hall. apply andb_true_iff in Hall as [Ht Hall].
  destruct toks as [|u toks].
  - cbn [join]. by apply split_nosep.
  - change (join TAB (t :: u :: toks)) with (t ++ TAB :: join TAB (u :: toks)).
    rewrite split_app_sep; [|done|done]. by rewrite IH.
Qed.

Lemma length_split pred s :
  length (split pred s) = S (length (List.filter pred s)).
Proof.
  induction s as [|c s IH]; [done|].
  cbn [split List.filter]. destruct (pred c).
  - simpl. by rewrite IH.
  - destruct (split pred s); simpl in *; lia.
Qed.

Lemma count_tabs_app s1 s2 : count_tabs (s1 ++ s2) = count_tabs s1 + count_tabs s2.
Proof. unfold count_tabs. by rewrite List.filter_app, length_app. Qed.

Lemma count_tabs_no_tab s : no_tab s = true -> count_tabs s = 0.
Proof.
  unfold count_tabs, no_tab. induction s as [|c s IH]; [done|].
  cbn [forallb List.filter]. intros [Hc Hs]%andb_true_iff.
  apply negb_true_iff in Hc. rewrite Hc. auto.
Qed.

Lemma count_tabs_join toks :
  forallb no_tab toks = true -> count_tabs (join TAB toks) = length toks - 1.
Proof.
  induction toks as [|t toks IH]; [done|].
  cbn [forallb]. intros [Ht Hall]%andb_true_iff.
  destruct toks as [|u toks].
  - cbn [join]. rewrite count_tabs_no_tab; done.
  - change (join TAB (t :: u :: toks)) with (t ++ TAB :: join TAB (u :: toks)).
    rewrite count_tabs_app, count_tabs_no_tab by done.
    change (count_tabs (TAB :: ?x)) with (S (count_tabs x)).
    rewrite IH by done. simpl. lia.
Qed.

Lemma tab_free_texts data :
  tab_free data = true -> forallb no_tab (map lexical_cast data) = true.
Proof.
  unfold tab_free. induction data as [|v data IH]; [done|].
  cbn [forallb map]. intros [-> Hd]%andb_true_iff. auto.
Qed.

(** * The walk of [to_tuple] over the positions *)

(** [to_tuple] writes, from position [N] on, the values converted
    before it stops, and leaves the other fields alone. *)
Lemma to_tuple_from_inserts tys : forall N rhs data,
  to_tuple_from tys N rhs data
  = (list_inserts N (convert_all tys N rhs).1 data, (convert_all tys N rhs).2).
Proof.
  induction tys as [|t tys IH]; intros N rhs data; cbn [to_tuple_from convert_all].
  - reflexivity.
  - destruct (rhs !! N) as [tok|]; [|reflexivity].
    destruct (convert t tok) as [v|e]; [|reflexivity].
    rewrite IH. destruct (convert_all tys (S N) rhs) as [vs st]. simpl.
    f_equal. symmetry. apply list_insert_inserts_lt. lia.
Qed.

Lemma convert_all_app t1 : forall t2 N rhs,
  convert_all (t1 ++ t2) N rhs
  = match convert_all t1 N rhs with
    | (vs, Done) =>
        let '(ws, st) := convert_all t2 (N + length t1) rhs in (vs ++ ws, st)
    | other => other
    end.
Proof.
  induction t1 as [|t t1 IH]; intros t2 N rhs.
  - cbn [app convert_all length]. rewrite Nat.add_0_r.
    by destruct (convert_all t2 N rhs).
  - cbn [app convert_all length].
    destruct (rhs !! N) as [tok|]; [|reflexivity].
    destruct (convert t tok) as [v|e]; [|reflexivity].
    rewrite IH. replace (N + S (length t1)) with (S N + length t1) by lia.
    destruct (convert_all t1 (S N) rhs) as [vs [| |]]; try reflexivity.
    by destruct (convert_all t2 (S N + length t1) rhs).
Qed.

Lemma convert_all_length tys : forall N rhs,
  length (convert_all tys N rhs).1 <= length tys.
Proof.
  induction tys as [|t tys IH]; intros N rhs; cbn [convert_all]; [done|].
  destruct (rhs !! N) as [tok|]; [|simpl; lia].
  destruct (convert t tok) as [v|e]; [|simpl; lia].
  specialize (IH (S N) rhs). destruct (convert_all tys (S N) rhs). simpl in *. lia.
Qed.

Lemma convert_all_Done_length tys : forall N rhs vs,
  convert_all tys N rhs = (vs, Done) -> length vs = length tys.
Proof.
  induction tys as [|t tys IH]; intros N rhs vs; cbn [convert_all].
  - by intros [= <-].
  - destruct (rhs !! N) as [tok|]; [|done].
    destruct (convert t tok) as [v|e]; [|done].
    destruct (convert_all tys (S N) rhs) as [ws st] eqn:E.
    intros [= <- ->]. simpl. f_equal. eauto.
Qed.

(** Only the tokens at the schema's positions are looked at. *)
Lemma convert_all_take tys : forall N m rhs,
  N + length tys <= m -> convert_all tys N (take m rhs) = convert_all tys N rhs.
Proof.
  induction tys as [|t tys IH]; intros N m rhs Hm; cbn [convert_all]; [done|].
  cbn [length] in Hm. rewrite lookup_take_lt by lia.
  destruct (rhs !! N) as [tok|]; [|done].
  destruct (convert t tok) as [v|e]; [|done].
  rewrite IH by lia. reflexivity.
Qed.

Lemma well_typed_length sch : forall data,
  well_typed sch data = true -> length data = length sch.
Proof.
  induction sch as [|t sch IH]; intros [|v data]; cbn [well_typed]; try done.
  intros [_ H]%andb_true_iff. simpl. f_equal. auto.
Qed.

Lemma convert_lexical_cast v t :
  has_type v t = true -> convert t (lexical_cast v) = Ok v.
Proof.
  destruct v as [s|n|c], t; cbn [has_type]; try done; intros H.
  cbn [convert lexical_cast]. by rewrite stoi_lexical_cast_int.
Qed.

Lemma convert_all_lexical_cast tys : forall r pre,
  well_typed tys r = true ->
  convert_all tys (length pre) (pre ++ map lexical_cast r) = (r, Done).
Proof.
  induction tys as [|t tys IH]; intros [|v r] pre; cbn [well_typed]; try done.
  intros [Hv Hr]%andb_true_iff. cbn [convert_all map].
  rewrite list_lookup_middle by done.
  rewrite (convert_lexical_cast _ _ Hv).
  specialize (IH r (pre ++ [lexical_cast v]) Hr).
  rewrite length_app, <- app_assoc in IH. cbn [length app] in IH.
  rewrite Nat.add_1_r in IH. by rewrite IH.
Qed.

Lemma list_inserts_prefix (vs data : list value) :
  length vs <= length data ->
  list_inserts 0 vs data = vs ++ drop (length vs) data.
Proof.
  intros H. rewrite <- (take_drop (length vs) data) at 1.
  apply list_inserts_0_r. rewrite length_take. lia.
Qed.

(** * Round trip *)

(** C1, as amended: under a schema with at least one field, for every
    record of the schema whose fields' texts hold no tab character,
    formatting succeeds and parsing the tab-split of the text into any
    target record of the schema yields the record itself, with no
    error. *)
Theorem parse_format_roundtrip (sch : list ftype) (r i : list value) :
  sch <> [] ->
  well_typed sch r = true ->
  tab_free r = true ->
  well_typed sch i = true ->
  exists s, to_string r = Some s
            /\ to_tuple sch (split (is_any_of [TAB]) s) i = (r, Done).
Proof.
  intros Hsch Hr Htab Hi.
  assert (r <> []) as Hne.
  { intros ->. destruct sch; [done|discriminate]. }
  exists (join TAB (map lexical_cast r)). split; [by apply to_string_join|].
  change (is_any_of [TAB]) with is_tab.
  rewrite split_join; [| by destruct r | by apply tab_free_texts].
  unfold to_tuple. rewrite to_tuple_from_inserts.
  pose proof (convert_all_lexical_cast sch r [] Hr) as E.
  cbn [length app] in E. rewrite E. cbn [fst snd].
  f_equal. rewrite list_inserts_prefix.
  - rewrite drop_ge; [apply app_nil_r|].
    apply well_typed_length in Hr, Hi. lia.
  - apply well_typed_length in Hr, Hi. lia.
Qed.

Lemma parse_format_roundtrip_witness :
  exists s, to_string [VString (lit "chrX"); VInt32 (-7); VChar "+"] = Some s
    /\ to_tuple [TString; TInt32; TChar] (split (is_any_of [TAB]) s)
         (Bed_default [TString; TInt32; TChar])
       = ([VString (lit "chrX"); VInt32 (-7); VChar "+"], Done).
Proof.
  apply (parse_format_roundtrip [TString; TInt32; TChar]); [done | reflexivity ..].
Defined.

(** C1 fails as stated: a tab inside a text field becomes a field
    separator, the tokens shift, and the parse stops at ["b"] with
    [invalid_argument]; a tab in a character field parses back, with no
    error, as two NUL characters. *)
Lemma parse_format_tab_counterexample :
  well_typed canonical [VString (lit "a" ++ [TAB] ++ lit "b"); VInt32 1; VInt32 2] = true
  /\ (exists s,
        to_string [VString (lit "a" ++ [TAB] ++ lit "b"); VInt32 1; VInt32 2] = Some s
        /\ to_tuple canonical (split (is_any_of [TAB]) s) (Bed_default canonical)
           = ([VString (lit "a"); VInt32 0; VInt32 0], Threw invalid_argument))
  /\ well_typed [TChar; TChar] [VChar TAB; VChar "x"] = true
  /\ (exists s,
        to_string [VChar TAB; VChar "x"] = Some s
        /\ to_tuple [TChar; TChar] (split (is_any_of [TAB]) s) (Bed_default [TChar; TChar])
           = ([VChar NUL; VChar NUL], Done))
  /\ ~ (forall sch r i,
          well_typed sch r = true -> well_typed sch i = true ->
          exists s, to_string r = Some s
                    /\ to_tuple sch (split (is_any_of [TAB]) s) i = (r, Done)).
Proof.
  split; [reflexivity|]. split; [eexists; split; reflexivity|].
  split; [reflexivity|]. split; [eexists; split; reflexivity|].
  intros H.
  destruct (H [TChar; TChar] [VChar TAB; VChar "x"%char] (Bed_default [TChar; TChar])
              eq_refl eq_refl) as (s & Hs & Hp).
  injection Hs as <-. discriminate Hp.
Qed.

(** * Field count of the text *)

(** C9, as amended: for every record with at least one field whose
    fields' texts hold no tab character, the text is exactly the
    fields' texts with one tab between neighbours and nothing after the
    last one; it splits into [field_count] tokens, the fields' texts,
    and holds [field_count - 1] tabs. *)
Theorem to_string_field_count (data : list value) :
  data <> [] ->
  tab_free data = true ->
  exists s, to_string data = Some s
            /\ s = join TAB (map lexical_cast data)
            /\ split (is_any_of [TAB]) s = map lexical_cast data
            /\ length (split (is_any_of [TAB]) s) = length data
            /\ count_tabs s = length data - 1.
Proof.
  intros Hne Htab. apply tab_free_texts in Htab.
  exists (join TAB (map lexical_cast data)).
  change (is_any_of [TAB]) with is_tab.
  rewrite split_join; [| by destruct data | done].
  rewrite count_tabs_join, length_map by done.
  auto using to_string_join.
Qed.

Lemma to_string_field_count_witness :
  exists s, to_string [VString (lit "chr1"); VInt32 100; VInt32 200] = Some s
    /\ s = lit "chr1" ++ [TAB] ++ lit "100" ++ [TAB] ++ lit "200"
    /\ split (is_any_of [TAB]) s = [lit "chr1"; lit "100"; lit "200"]
    /\ length (split (is_any_of [TAB]) s) = 3
    /\ count_tabs s = 2.
Proof.
  apply (to_string_field_count [VString (lit "chr1"); VInt32 100; VInt32 200]);
    [done | reflexivity].
Defined.

(** C9 fails as stated: the text of a three-field record with a tab
    inside its text field has three tabs and four tokens. *)
Lemma to_string_field_count_counterexample :
  well_typed canonical [VString (lit "a" ++ [TAB] ++ lit "b"); VInt32 1; VInt32 2] = true
  /\ exists s,
       to_string [VString (lit "a" ++ [TAB] ++ lit "b"); VInt32 1; VInt32 2] = Some s
       /\ count_tabs s = 3
       /\ length (split (is_any_of [TAB]) s) = 4
       /\ ~ (forall sch data,
               well_typed sch data = true ->
               exists t, to_string data = Some t
                         /\ count_tabs t = length data - 1
                         /\ length (split (is_any_of [TAB]) t) = length data).
Proof.
  split; [reflexivity|]. eexists. split; [reflexivity|].
  split; [reflexivity|]. split; [reflexivity|].
  intros H.
  destruct (H canonical [VString (lit "a" ++ [TAB] ++ lit "b"); VInt32 1; VInt32 2]
              eq_refl) as (t & Ht & Hc & _).
  injection Ht as <-. discriminate Hc.
Qed.

(** * Batch output *)

Lemma dump_loop_concat c : forall s,
  dump_loop c s
  = match mapM to_string c with
    | Some ts => Some (s ++ concat (map (fun t => t ++ [NL]) ts))
    | None => None
    end.
Proof.
  induction c as [|i c IH]; intros s; cbn [dump_loop mapM].
  - simpl. by rewrite app_nil_r.
  - destruct (to_string i) as [t|]; [|reflexivity]. simpl.
    rewrite IH. destruct (mapM to_string c) as [ts|]; [|reflexivity].
    simpl. by rewrite <- !app_assoc.
Qed.

Lemma mapM_to_string c :
  Forall (fun r => r <> []) c ->
  mapM to_string c = Some (map (fun r => join TAB (map lexical_cast r)) c).
Proof.
  induction 1 as [|r c Hr _ IH]; [done|].
  cbn [mapM map]. rewrite to_string_join by done. simpl. by rewrite IH.
Qed.

(** C7: [dump] appends to the stream exactly the texts of the records,
    in the order of the container, each followed by one newline: the
    text of a record is what [to_string] gives for it, and when every
    record has a field, every text exists and is the record's fields
    joined by tabs. *)
Theorem dump_in_order (rhs : cstring) (c : list (list value)) :
  dump rhs c
  = match mapM to_string c with
    | Some ts => Some (rhs ++ concat (map (fun t => t ++ [NL]) ts))
    | None => None
    end
  /\ (Forall (fun r => r <> []) c ->
      dump rhs c
      = Some (rhs ++ concat (map (fun r => join TAB (map lexical_cast r) ++ [NL]) c))).
Proof.
  assert (dump rhs c
          = match mapM to_string c with
            | Some ts => Some (rhs ++ concat (map (fun t => t ++ [NL]) ts))
            | None => None
            end) as E.
  { unfold dump, ostream_put. rewrite dump_loop_concat.
    by destruct (mapM to_string c). }
  split; [exact E|]. intros Hc. rewrite E, mapM_to_string by done.
  by rewrite map_map.
Qed.

Lemma dump_in_order_witness :
  dump (lit "#") [[VString (lit "b"); VInt32 2]; [VString (lit "a"); VInt32 1];
                  [VString (lit "b"); VInt32 2]]
  = Some (lit "#" ++ lit "b" ++ [TAB] ++ lit "2" ++ [NL]
                  ++ lit "a" ++ [TAB] ++ lit "1" ++ [NL]
                  ++ lit "b" ++ [TAB] ++ lit "2" ++ [NL]).
Proof.
  destruct (dump_in_order (lit "#")
              [[VString (lit "b"); VInt32 2]; [VString (lit "a"); VInt32 1];
               [VString (lit "b"); VInt32 2]]) as [_ H].
  rewrite H; [reflexivity|]. repeat constructor; discriminate.
Defined.

(** * Parsing position by position *)

Lemma convert_all_split_at sch rhs k t vs :
  sch !! k = Some t ->
  convert_all (take k sch) 0 rhs = (vs, Done) ->
  length vs = k
  /\ convert_all sch 0 rhs
     = let '(ws, st) := convert_all (t :: drop (S k) sch) k rhs in (vs ++ ws, st).
Proof.
  intros Ht Hvs.
  pose proof (lookup_lt_Some _ _ _ Ht) as Hk.
  pose proof (convert_all_Done_length _ _ _ _ Hvs) as Hlen.
  rewrite length_take in Hlen.
  split; [lia|].
  rewrite <- (take_drop_middle sch k t Ht) at 1.
  rewrite convert_all_app, Hvs, length_take.
  replace (0 + k `min` length sch) with k by lia. reflexivity.
Qed.

Lemma convert_all_Done_lookup tys : forall N rhs vs,
  convert_all tys N rhs = (vs, Done) ->
  forall j x, vs !! j = Some x ->
  exists t tok, tys !! j = Some t /\ rhs !! (N + j) = Some tok /\ convert t tok = Ok x.
Proof.
  induction tys as [|t tys IH]; intros N rhs vs; cbn [convert_all].
  - by intros [= <-] j x.
  - destruct (rhs !! N) as [tok|] eqn:Etok; [|done].
    destruct (convert t tok) as [v|e] eqn:Ev; [|done].
    destruct (convert_all tys (S N) rhs) as [ws st] eqn:E.
    intros [= <- ->] [|j] x.
    + intros [= <-]. exists t, tok. by rewrite Nat.add_0_r.
    + intros Hj. destruct (IH _ _ _ E j x Hj) as (t' & tok' & ? & ? & ?).
      exists t', tok'. by rewrite Nat.add_succ_r.
Qed.

(** C10: [to_tuple] is not atomic.  When the tokens before position
    [k] convert and the token at the int32 position [k] makes [stoi]
    throw, the exception leaves the record with the new values [vs],
    the conversions of the line's tokens, in fields [0 .. k-1] and
    the old values in fields [k ..]. *)
Theorem to_tuple_not_atomic (sch : list ftype) (rhs : list cstring)
    (i vs : list value) (k : nat) (tok : cstring) (e : exn) :
  well_typed sch i = true ->
  sch !! k = Some TInt32 ->
  rhs !! k = Some tok ->
  stoi tok = Throw e ->
  convert_all (take k sch) 0 rhs = (vs, Done) ->
  length vs = k
  /\ (forall j x, vs !! j = Some x ->
      exists t tok, sch !! j = Some t /\ rhs !! j = Some tok /\ convert t tok = Ok x)
  /\ to_tuple sch rhs i = (vs ++ drop k i, Threw e).
Proof.
  intros Hi Ht Htok He Hvs.
  destruct (convert_all_split_at sch rhs k TInt32 vs Ht Hvs) as [Hlen E].
  split; [done|]. split.
  { intros j x Hj.
    destruct (convert_all_Done_lookup _ _ _ _ Hvs j x Hj) as (t & tk & Hl & ? & ?).
    exists t, tk. apply lookup_take_Some in Hl as [? _]. done. }
  unfold to_tuple. rewrite to_tuple_from_inserts, E.
  cbn [convert_all convert]. rewrite Htok, He. cbn [fst snd].
  rewrite app_nil_r, list_inserts_prefix, Hlen; [done|].
  apply well_typed_length in Hi. apply lookup_lt_Some in Ht. lia.
Qed.

Lemma to_tuple_not_atomic_witness :
  0 < 2
  /\ to_tuple canonical [lit "chr2"; lit "5"; lit "x"]
       [VString (lit "chr1"); VInt32 100; VInt32 200]
     = ([VString (lit "chr2"); VInt32 5; VInt32 200], Threw invalid_argument).
Proof.
  split; [lia|].
  refine (proj2 (proj2 (to_tuple_not_atomic canonical [lit "chr2"; lit "5"; lit "x"]
           [VString (lit "chr1"); VInt32 100; VInt32 200]
           [VString (lit "chr2"); VInt32 5] 2 (lit "x") invalid_argument
           _ _ _ _ _)));
    reflexivity.
Defined.

(** C6, as amended: at a character position [k] that the parse
    reaches, no token is an error.  The field is bound to the first
    character of the token, and to the NUL character when the token is
    empty, and the parse goes on with the positions after [k]. *)
Theorem to_tuple_char_token (sch : list ftype) (rhs : list cstring)
    (i vs : list value) (k : nat) (tok : cstring) :
  well_typed sch i = true ->
  sch !! k = Some TChar ->
  rhs !! k = Some tok ->
  convert_all (take k sch) 0 rhs = (vs, Done) ->
  (to_tuple sch rhs i).1 !! k
    = Some (VChar match tok with [] => NUL | c :: _ => c end)
  /\ (to_tuple sch rhs i).2 = (convert_all (drop (S k) sch) (S k) rhs).2.
Proof.
  intros Hi Ht Htok Hvs.
  destruct (convert_all_split_at sch rhs k TChar vs Ht Hvs) as [Hlen E].
  unfold to_tuple. rewrite to_tuple_from_inserts, E.
  cbn [convert_all convert]. rewrite Htok.
  destruct (convert_all (drop (S k) sch) (S k) rhs) as [ws st]. cbn [fst snd].
  split; [|done].
  apply well_typed_length in Hi. apply lookup_lt_Some in Ht.
  rewrite list_lookup_inserts by (rewrite ?length_app; simpl; lia).
  rewrite Nat.sub_0_r, lookup_app_r by lia.
  rewrite Hlen, Nat.sub_diag. by destruct tok.
Qed.

Lemma to_tuple_char_token_witness :
  (to_tuple [TString; TChar; TInt32] [lit "chr1"; []; lit "9"]
     [VString []; VChar "+"; VInt32 0]).1 !! 1 = Some (VChar NUL)
  /\ (to_tuple [TString; TChar; TInt32] [lit "chr1"; []; lit "9"]
        [VString []; VChar "+"; VInt32 0]).2 = Done.
Proof.
  apply (to_tuple_char_token [TString; TChar; TInt32] [lit "chr1"; []; lit "9"]
           [VString []; VChar "+"; VInt32 0] [VString (lit "chr1")] 1 []);
    reflexivity.
Defined.

(** C6 fails as stated: an empty token for a character field is
    accepted and the NUL character is bound. *)
Lemma empty_char_token_counterexample :
  convert TChar [] = Ok (VChar NUL)
  /\ to_tuple [TString; TChar] [lit "chr1"; []] [VString []; VChar "+"]
     = ([VString (lit "chr1"); VChar NUL], Done)
  /\ ~ (forall sch rhs i k,
          well_typed sch i = true -> sch !! k = Some TChar -> rhs !! k = Some [] ->
          exists e, (to_tuple sch rhs i).2 = Threw e).
Proof.
  split; [reflexivity|]. split; [reflexivity|].
  intros H.
  destruct (H [TString; TChar] [lit "chr1"; []] [VString []; VChar "+"%char] 1
              eq_refl eq_refl eq_refl) as (e & He).
  discriminate He.
Qed.

(** * Integer boundaries *)

(** C5: the tokens "2147483647" and "-2147483648" parse into an int32
    field as these values, whose texts are the same tokens again; the
    token "2147483648" makes the conversion throw [out_of_range], and
    the field keeps its value. *)
Theorem int32_boundaries :
  to_tuple [TInt32] [lit "2147483647"] [VInt32 0] = ([VInt32 2147483647], Done)
  /\ to_string [VInt32 2147483647] = Some (lit "2147483647")
  /\ to_tuple [TInt32] [lit "-2147483648"] [VInt32 0] = ([VInt32 (-2147483648)], Done)
  /\ to_string [VInt32 (-2147483648)] = Some (lit "-2147483648")
  /\ convert TInt32 (lit "2147483648") = Throw out_of_range
  /\ to_tuple [TInt32] [lit "2147483648"] [VInt32 0] = ([VInt32 0], Threw out_of_range).
Proof. repeat split; reflexivity. Qed.

(** * Reading a record from a stream *)

Lemma getline_None rhs :
  good rhs = false \/ unread rhs = [] ->
  getline rhs = (mk_istream (unread rhs) (eofbit rhs || good rhs) true, None).
Proof.
  unfold getline. intros [H | H].
  - rewrite H. by rewrite orb_false_r.
  - destruct (good rhs) eqn:G.
    + rewrite H, orb_true_r. reflexivity.
    + by rewrite orb_false_r.
Qed.

(** C4: when the stream has no further line (it is at its end, or not
    in a good state), [get_obj] returns normally, every field of the
    target record is as before, and [failbit] is set for the caller's
    loop test. *)
Theorem get_obj_end_of_stream (sch : list ftype) (rhs : istream) (i : list value) :
  good rhs = false \/ unread rhs = [] ->
  exists rhs', get_obj sch rhs i = (rhs', i, Done)
               /\ failbit rhs' = true /\ unread rhs' = unread rhs.
Proof.
  intros H. unfold get_obj. rewrite (getline_None rhs H).
  eexists. split; [reflexivity|]. split; reflexivity.
Qed.

Lemma get_obj_end_of_stream_witness :
  exists rhs',
    get_obj canonical (mk_istream [] false false)
      [VString (lit "chr1"); VInt32 100; VInt32 200]
    = (rhs', [VString (lit "chr1"); VInt32 100; VInt32 200], Done)
    /\ failbit rhs' = true /\ unread rhs' = [].
Proof.
  apply (get_obj_end_of_stream canonical (mk_istream [] false false)).
  right. reflexivity.
Defined.

Lemma convert_all_defined tys : forall N rhs,
  N + length tys <= length rhs -> (convert_all tys N rhs).2 <> Undefined.
Proof.
  induction tys as [|t tys IH]; intros N rhs Hlen; cbn [convert_all]; [done|].
  cbn [length] in Hlen.
  destruct (lookup_lt_is_Some_2 rhs N ltac:(lia)) as [tok ->].
  destruct (convert t tok) as [v|e]; [|done].
  specialize (IH (S N) rhs ltac:(lia)).
  by destruct (convert_all tys (S N) rhs).
Qed.

(** C3, as amended: [get_obj] does not compare the number of tokens
    with the number of fields.  For a line with at least [field_count]
    tokens it binds the first [field_count] of them and ignores the
    others: the outcome is that of parsing these first tokens alone. *)
Theorem get_obj_surplus_tokens (sch : list ftype) (rhs rhs' : istream)
    (line : cstring) (i : list value) :
  getline rhs = (rhs', Some line) ->
  length sch <= length (split (is_any_of [TAB]) line) ->
  get_obj sch rhs i
  = (rhs',
     (to_tuple sch (take (length sch) (split (is_any_of [TAB]) line)) i).1,
     (to_tuple sch (take (length sch) (split (is_any_of [TAB]) line)) i).2)
  /\ (get_obj sch rhs i).2 <> Undefined.
Proof.
  intros Hline Hlen. unfold get_obj. rewrite Hline.
  unfold to_tuple. rewrite !to_tuple_from_inserts.
  rewrite convert_all_take by (simpl; lia).
  cbn [fst snd]. split; [reflexivity|].
  apply convert_all_defined. simpl. lia.
Qed.

Lemma get_obj_surplus_tokens_witness :
  get_obj canonical
    (mk_istream (lit "chr1" ++ [TAB] ++ lit "100" ++ [TAB] ++ lit "200"
                 ++ [TAB] ++ lit "extra" ++ [NL]) false false)
    (Bed_default canonical)
  = (mk_istream [] false false, [VString (lit "chr1"); VInt32 100; VInt32 200], Done).
Proof.
  destruct (get_obj_surplus_tokens canonical
              (mk_istream (lit "chr1" ++ [TAB] ++ lit "100" ++ [TAB] ++ lit "200"
                           ++ [TAB] ++ lit "extra" ++ [NL]) false false)
              (mk_istream [] false false)
              (lit "chr1" ++ [TAB] ++ lit "100" ++ [TAB] ++ lit "200"
                 ++ [TAB] ++ lit "extra")
              (Bed_default canonical)) as [H _];
    [reflexivity | simpl; lia |].
  rewrite H. reflexivity.
Defined.

(** C3 fails as stated: a line of four tokens is read into the
    three-field record with no error, and a line of two tokens makes
    [to_tuple] index the token vector past its end, after it has bound
    the first two fields; neither is a reported failure. *)
Lemma field_count_counterexample :
  length (split (is_any_of [TAB])
            (lit "chr1" ++ [TAB] ++ lit "100" ++ [TAB] ++ lit "200" ++ [TAB] ++ lit "extra"))
    = 4
  /\ get_obj canonical
       (mk_istream (lit "chr1" ++ [TAB] ++ lit "100" ++ [TAB] ++ lit "200"
                    ++ [TAB] ++ lit "extra" ++ [NL]) false false)
       (Bed_default canonical)
     = (mk_istream [] false false, [VString (lit "chr1"); VInt32 100; VInt32 200], Done)
  /\ length (split (is_any_of [TAB]) (lit "chr1" ++ [TAB] ++ lit "100")) = 2
  /\ get_obj canonical
       (mk_istream (lit "chr1" ++ [TAB] ++ lit "100" ++ [NL]) false false)
       (Bed_default canonical)
     = (mk_istream [] false false, [VString (lit "chr1"); VInt32 100; VInt32 0], Undefined)
  /\ ~ (forall sch rhs rhs' line i,
          well_typed sch i = true ->
          getline rhs = (rhs', Some line) ->
          length (split (is_any_of [TAB]) line) <> length sch ->
          exists e, (get_obj sch rhs i).2 = Threw e).
Proof.
  split; [reflexivity|]. split; [reflexivity|].
  split; [reflexivity|]. split; [reflexivity|].
  intros H.
  destruct (H canonical
              (mk_istream (lit "chr1" ++ [TAB] ++ lit "100" ++ [TAB] ++ lit "200"
                           ++ [TAB] ++ lit "extra" ++ [NL]) false false)
              (mk_istream [] false false)
              (lit "chr1" ++ [TAB] ++ lit "100" ++ [TAB] ++ lit "200"
                 ++ [TAB] ++ lit "extra")
              (Bed_default canonical) eq_refl eq_refl ltac:(discriminate))
    as (e & He).
  discriminate He.
Qed.

(** * Tokens for an integer field *)

Lemma is_digit_facts c :
  is_digit c = true ->
  isspace c = false /\ is_sign_char c = false.
Proof. destruct c as [[] [] [] [] [] [] [] []]; vm_compute; intros; done. Qed.

Lemma is_sign_char_not_space c : is_sign_char c = true -> isspace c = false.
Proof. destruct c as [[] [] [] [] [] [] [] []]; vm_compute; intros; done. Qed.

Lemma span_spec p s :
  s = (span p s).1 ++ (span p s).2
  /\ forallb p (span p s).1 = true
  /\ match (span p s).2 with c :: _ => p c = false | [] => True end.
Proof.
  induction s as [|c s IH]; [done|].
  cbn [span]. destruct (p c) eqn:Hc.
  - destruct (span p s) as [a b]. cbn [fst snd] in *.
    destruct IH as (-> & Ha & Hb). cbn [forallb]. rewrite Hc, Ha. done.
  - cbn [fst snd]. rewrite Hc. done.
Qed.

Lemma skip_spaces_span s : skip_spaces s = (span isspace s).2.
Proof.
  induction s as [|c s IH]; [done|].
  cbn [skip_spaces span]. destruct (isspace c); [|done].
  rewrite IH. by destruct (span isspace s).
Qed.

Lemma skip_spaces_app ws s :
  forallb isspace ws = true -> skip_spaces (ws ++ s) = skip_spaces s.
Proof.
  induction ws as [|c ws IH]; [done|].
  cbn [forallb]. intros [Hc Hws]%andb_true_iff.
  cbn [app skip_spaces]. rewrite Hc. auto.
Qed.

Lemma read_digits_app ds rest : forall acc,
  forallb is_digit ds = true -> starts_with_digit rest = false ->
  read_digits (ds ++ rest) acc
  = fold_left (fun acc c => (acc * 10 + default 0 (digit_of c))%Z) ds acc.
Proof.
  induction ds as [|c ds IH]; intros acc Hds Hrest.
  - destruct rest as [|c rest]; [done|].
    cbn [app read_digits fold_left]. unfold starts_with_digit, is_digit in Hrest.
    by destruct (digit_of c).
  - cbn [forallb] in Hds. apply andb_true_iff in Hds as [Hc Hds].
    cbn [app read_digits fold_left]. unfold is_digit in Hc.
    destruct (digit_of c) as [d|]; [|done]. by apply IH.
Qed.

Lemma strtol_digits_app ds rest :
  all_digits ds = true -> starts_with_digit rest = false ->
  strtol_digits (ds ++ rest) = Some (dec_value ds).
Proof.
  intros Hds Hrest. destruct ds as [|c ds]; [done|].
  cbn [all_digits] in Hds. unfold strtol_digits, dec_value.
  rewrite read_digits_app by done.
  cbn [forallb] in Hds. apply andb_true_iff in Hds as [Hc _].
  cbn [app]. unfold is_digit in Hc. by destruct (digit_of c).
Qed.

Lemma strtol_digits_no_digit s :
  starts_with_digit s = false -> strtol_digits s = None.
Proof.
  destruct s as [|c s]; [done|]. unfold starts_with_digit, is_digit, strtol_digits.
  by destruct (digit_of c).
Qed.

Lemma stoi_leading_integer ws sgn ds rest :
  leading_integer ws sgn ds rest = true ->
  stoi (ws ++ sgn ++ ds ++ rest)
  = if in_int32 (signed sgn (dec_value ds)) then Ok (signed sgn (dec_value ds))
    else Throw out_of_range.
Proof.
  unfold leading_integer.
  intros [[[Hws Hsgn]%andb_true_iff Hds]%andb_true_iff Hrest%negb_true_iff]%andb_true_iff.
  unfold stoi. rewrite skip_spaces_app by done.
  pose proof (strtol_digits_app ds rest Hds Hrest) as Hd.
  destruct ds as [|d ds]; [done|].
  assert (is_digit d = true) as Hdig.
  { cbn [all_digits forallb] in Hds. by apply andb_true_iff in Hds as [? _]. }
  destruct (is_digit_facts d Hdig) as [Hsp Hsc].
  destruct sgn as [|c [|? ?]]; [| |done].
  - cbn [app] in *. cbn [skip_spaces]. rewrite Hsp.
    unfold strtol_sign. unfold is_sign_char in Hsc.
    apply orb_false_iff in Hsc as [-> ->]. by rewrite Hd.
  - cbn [is_sign] in Hsgn. cbn [app] in *. cbn [skip_spaces].
    rewrite (is_sign_char_not_space c Hsgn).
    unfold strtol_sign, signed. unfold is_sign_char in Hsgn.
    destruct (Ascii.eqb c "-").
    + by rewrite Hd.
    + simpl in Hsgn. rewrite Hsgn. by rewrite Hd.
Qed.

Lemma strtol_sign_spec s :
  exists sgn, s = sgn ++ (strtol_sign s).2 /\ is_sign sgn = true.
Proof.
  destruct s as [|c s]; [by exists []|].
  unfold strtol_sign. destruct (Ascii.eqb c "-") eqn:E1.
  - exists [c]. split; [done|]. unfold is_sign, is_sign_char. by rewrite E1.
  - destruct (Ascii.eqb c "+") eqn:E2.
    + exists [c]. split; [done|]. unfold is_sign, is_sign_char. by rewrite E1, E2.
    + by exists [].
Qed.

(** Every token that [stoi] does not reject with [invalid_argument]
    starts with a decimal integer. *)
Lemma stoi_decompose tok :
  stoi tok <> Throw invalid_argument ->
  exists ws sgn ds rest,
    leading_integer ws sgn ds rest = true /\ tok = ws ++ sgn ++ ds ++ rest.
Proof.
  intros Hstoi.
  destruct (span_spec isspace tok) as (Htok & Hws & _).
  rewrite <- skip_spaces_span in Htok.
  destruct (strtol_sign_spec (skip_spaces tok)) as (sgn & Hs & Hsgn).
  destruct (span_spec is_digit (strtol_sign (skip_spaces tok)).2) as (Hd & Hds & Hrest).
  exists (span isspace tok).1, sgn,
    (span is_digit (strtol_sign (skip_spaces tok)).2).1,
    (span is_digit (strtol_sign (skip_spaces tok)).2).2.
  split; [|by rewrite <- Hd, <- Hs].
  unfold leading_integer. rewrite Hws, Hsgn. cbn [andb].
  apply andb_true_iff. split.
  - destruct (span is_digit (strtol_sign (skip_spaces tok)).2).1 as [|d ds] eqn:E; [|done].
    exfalso. apply Hstoi. unfold stoi.
    destruct (strtol_sign (skip_spaces tok)) as [neg s2]. cbn [snd] in *.
    cbn [app] in Hd. rewrite strtol_digits_no_digit; [done|].
    rewrite Hd. destruct (span is_digit s2).2; [done|]. done.
  - apply negb_true_iff.
    by destruct (span is_digit (strtol_sign (skip_spaces tok)).2).2.
Qed.

(** C2, as amended: a token is bound to an int32 field by the decimal
    integer it starts with.  After optional white space and an
    optional sign, the digits up to the first other character are
    converted and what follows them is ignored; the value is bound when
    it is an int32 and the conversion throws [out_of_range] otherwise.
    The conversion throws [invalid_argument] exactly for the tokens
    that do not start with a decimal integer in this way. *)
Theorem convert_int32_leading_integer :
  (forall ws sgn ds rest,
     leading_integer ws sgn ds rest = true ->
     convert TInt32 (ws ++ sgn ++ ds ++ rest)
     = if in_int32 (signed sgn (dec_value ds))
       then Ok (VInt32 (signed sgn (dec_value ds)))
       else Throw out_of_range)
  /\ (forall tok,
        convert TInt32 tok = Throw invalid_argument
        <-> ~ exists ws sgn ds rest,
                leading_integer ws sgn ds rest = true
                /\ tok = ws ++ sgn ++ ds ++ rest).
Proof.
  split.
  - intros ws sgn ds rest H. cbn [convert].
    rewrite (stoi_leading_integer _ _ _ _ H).
    by destruct (in_int32 (signed sgn (dec_value ds))).
  - intros tok. split.
    + intros Hc (ws & sgn & ds & rest & H & ->).
      cbn [convert] in Hc. rewrite (stoi_leading_integer _ _ _ _ H) in Hc.
      by destruct (in_int32 (signed sgn (dec_value ds))).
    + intros Hno. cbn [convert].
      destruct (stoi tok) as [n|[|]] eqn:E; [| done |].
      * exfalso. apply Hno, stoi_decompose. by rewrite E.
      * exfalso. apply Hno, stoi_decompose. by rewrite E.
Qed.

Lemma convert_int32_leading_integer_witness :
  convert TInt32 (lit "12a") = Ok (VInt32 12).
Proof.
  destruct convert_int32_leading_integer as [H _].
  apply (H [] [] (lit "12") (lit "a")). reflexivity.
Defined.

(** C2 fails as stated: "12a" is not a decimal integer, and the int32
    field is bound to 12 with no error. *)
Lemma malformed_integer_counterexample :
  valid_decimal (lit "12a") = false
  /\ convert TInt32 (lit "12a") = Ok (VInt32 12)
  /\ to_tuple [TInt32] [lit "12a"] [VInt32 0] = ([VInt32 12], Done)
  /\ ~ (forall tok, valid_decimal tok = false -> exists e, convert TInt32 tok = Throw e).
Proof.
  split; [reflexivity|]. split; [reflexivity|]. split; [reflexivity|].
  intros H. destruct (H (lit "12a") eq_refl) as (e & He). discriminate He.
Qed.

(** * Ordering *)

Lemma uchar_inj c1 c2 : uchar c1 = uchar c2 -> c1 = c2.
Proof.
  unfold uchar. intros H%Nat2Z.inj.
  rewrite <- (ascii_nat_embedding c1), <- (ascii_nat_embedding c2).
  by rewrite H.
Qed.

Lemma uchar_range c : (0 <= uchar c < 256)%Z.
Proof. unfold uchar. pose proof (nat_ascii_bounded c). lia. Qed.

Lemma string_compare_Eq s1 : forall s2, string_compare s1 s2 = Eq -> s1 = s2.
Proof.
  induction s1 as [|c1 s1 IH]; intros [|c2 s2]; cbn [string_compare]; try done.
  destruct (Z.compare_spec (uchar c1) (uchar c2)) as [E| |]; try done.
  intros H. f_equal; [by apply uchar_inj | by apply IH].
Qed.

Lemma string_compare_refl s : string_compare s s = Eq.
Proof.
  induction s as [|c s IH]; cbn [string_compare]; [done|].
  by rewrite Z.compare_refl.
Qed.

Lemma string_compare_antisym s1 : forall s2,
  string_compare s2 s1 = CompOpp (string_compare s1 s2).
Proof.
  induction s1 as [|c1 s1 IH]; intros [|c2 s2]; cbn [string_compare]; try done.
  rewrite (Z.compare_antisym (uchar c1) (uchar c2)).
  destruct (uchar c1 ?= uchar c2)%Z; cbn [CompOpp]; auto.
Qed.

Lemma string_compare_trans s1 : forall s2 s3,
  string_compare s1 s2 = Lt -> string_compare s2 s3 = Lt ->
  string_compare s1 s3 = Lt.
Proof.
  induction s1 as [|c1 s1 IH]; intros [|c2 s2] [|c3 s3];
    cbn [string_compare]; try done.
  destruct (Z.compare_spec (uchar c1) (uchar c2)),
           (Z.compare_spec (uchar c2) (uchar c3)),
           (Z.compare_spec (uchar c1) (uchar c3));
    try done; try lia; eauto.
Qed.

Section OrderingFacts.

Variable char_signed : bool.

Abbreviation vlt := (value_lt char_signed).
Abbreviation tless := (tuple_less char_signed).

Lemma char_value_inj c1 c2 :
  char_value char_signed c1 = char_value char_signed c2 -> c1 = c2.
Proof.
  unfold char_value. intros H. apply uchar_inj.
  pose proof (uchar_range c1). pose proof (uchar_range c2).
  destruct char_signed; cbn [andb] in H; [|done].
  destruct (Z.leb_spec 128 (uchar c1)), (Z.leb_spec 128 (uchar c2)); lia.
Qed.

Lemma value_lt_irrefl x : vlt x x = false.
Proof.
  destruct x as [s|n|c]; cbn [value_lt].
  - unfold string_lt. by rewrite string_compare_refl.
  - apply Z.ltb_irrefl.
  - apply Z.ltb_irrefl.
Qed.

Lemma value_lt_asym x y : vlt x y = true -> vlt y x = false.
Proof.
  destruct x as [s|n|c], y as [s'|n'|c']; cbn [value_lt]; try done.
  - unfold string_lt. rewrite (string_compare_antisym s s').
    by destruct (string_compare s s').
  - rewrite Z.ltb_lt, Z.ltb_ge. lia.
  - rewrite Z.ltb_lt, Z.ltb_ge. lia.
Qed.

Lemma value_lt_total x y t :
  has_type x t = true -> has_type y t = true ->
  vlt x y = false -> vlt y x = false -> x = y.
Proof.
  destruct x as [s|n|c], y as [s'|n'|c'], t; cbn [has_type value_lt]; try done.
  - intros _ _. unfold string_lt. rewrite (string_compare_antisym s s').
    destruct (string_compare s s') eqn:E; cbn [CompOpp]; try done.
    intros _ _. f_equal. by apply string_compare_Eq.
  - intros _ _. rewrite !Z.ltb_ge. intros. f_equal. lia.
  - intros _ _. rewrite !Z.ltb_ge. intros. f_equal. apply char_value_inj. lia.
Qed.

Lemma value_lt_trans x y z : vlt x y = true -> vlt y z = true -> vlt x z = true.
Proof.
  destruct x as [s|n|c], y as [s'|n'|c'], z as [s''|n''|c''];
    cbn [value_lt]; try done.
  - unfold string_lt.
    destruct (string_compare s s') eqn:E1; try done.
    destruct (string_compare s' s'') eqn:E2; try done.
    by rewrite (string_compare_trans _ _ _ E1 E2).
  - rewrite !Z.ltb_lt. lia.
  - rewrite !Z.ltb_lt. lia.
Qed.

Lemma tuple_less_irrefl a : tless a a = false.
Proof.
  induction a as [|x a IH]; [done|]. cbn [tuple_less].
  by rewrite value_lt_irrefl, IH.
Qed.

Lemma tuple_less_asym a : forall b, tless a b = true -> tless b a = false.
Proof.
  induction a as [|x a IH]; intros [|y b]; cbn [tuple_less]; try done.
  destruct (vlt x y) eqn:Exy.
  - intros _. by rewrite (value_lt_asym _ _ Exy).
  - cbn [orb]. intros [Hyx Hab]%andb_true_iff.
    apply negb_true_iff in Hyx. rewrite Hyx. cbn [orb negb andb]. auto.
Qed.

Lemma tuple_less_total sch : forall a b,
  well_typed sch a = true -> well_typed sch b = true ->
  tless a b = false -> tless b a = false -> a = b.
Proof.
  induction sch as [|t sch IH]; intros [|x a] [|y b]; cbn [well_typed]; try done.
  intros [Hx Ha]%andb_true_iff [Hy Hb]%andb_true_iff. cbn [tuple_less].
  destruct (vlt x y) eqn:Exy; [done|].
  destruct (vlt y x) eqn:Eyx; [done|]. cbn [orb negb andb].
  intros Hab Hba. f_equal; [by eapply value_lt_total | by apply IH].
Qed.

Lemma tuple_less_trans sch : forall a b c,
  well_typed sch a = true -> well_typed sch b = true -> well_typed sch c = true ->
  tless a b = true -> tless b c = true -> tless a c = true.
Proof.
  induction sch as [|t sch IH]; intros [|x a] [|y b] [|z c];
    cbn [well_typed]; try done.
  intros [Hx Ha]%andb_true_iff [Hy Hb]%andb_true_iff [Hz Hc]%andb_true_iff.
  cbn [tuple_less].
  destruct (vlt x y) eqn:Exy; cbn [orb].
  - intros _. destruct (vlt y z) eqn:Eyz; cbn [orb].
    + intros _. by rewrite (value_lt_trans _ _ _ Exy Eyz).
    + intros [Hzy _]%andb_true_iff. apply negb_true_iff in Hzy.
      rewrite <- (value_lt_total _ _ _ Hy Hz Eyz Hzy). by rewrite Exy.
  - intros [Hyx Hab]%andb_true_iff. apply negb_true_iff in Hyx.
    rewrite <- (value_lt_total _ _ _ Hx Hy Exy Hyx). clear Exy Hyx.
    destruct (vlt x z) eqn:Exz; cbn [orb]; [done|].
    intros [Hzx Hbc]%andb_true_iff. rewrite Hzx. cbn [andb]. eauto.
Qed.

Lemma tuple_less_lex sch : forall a b,
  well_typed sch a = true -> well_typed sch b = true ->
  tless a b = true -> lex_lt char_signed a b.
Proof.
  induction sch as [|t sch IH]; intros [|x a] [|y b]; cbn [well_typed]; try done.
  intros [Hx Ha]%andb_true_iff [Hy Hb]%andb_true_iff. cbn [tuple_less].
  destruct (vlt x y) eqn:Exy; cbn [orb].
  - intros _. by exists 0, x, y.
  - intros [Hyx Hab]%andb_true_iff. apply negb_true_iff in Hyx.
    destruct (IH a b Ha Hb Hab) as (k & x' & y' & Ht & Hka & Hkb & Hlt).
    exists (S k), x', y'. cbn [take]. rewrite Ht.
    by rewrite (value_lt_total _ _ _ Hx Hy Exy Hyx).
Qed.

Lemma lex_tuple_less a b : lex_lt char_signed a b -> tless a b = true.
Proof.
  intros (k & x & y & Ht & Hka & Hkb & Hlt).
  revert a b Ht Hka Hkb. induction k as [|k IH]; intros [|x' a] [|y' b]; try done.
  - cbn. intros _ [= ->] [= ->]. by rewrite Hlt.
  - cbn [take]. intros [= -> Ht] Hka Hkb. cbn [tuple_less].
    rewrite value_lt_irrefl. cbn [orb negb andb]. by apply IH.
Qed.

(** C8: on the records of one schema, [operator<] is a strict total
    order: of [a < b], [b < a] and the field-wise equality of [a]
    and [b] exactly one holds, and [<] is transitive.  It is the
    lexicographic order of the fields from field 0 on, each compared
    by the order of its type. *)
Theorem Bed_lt_strict_total_order (sch : list ftype) (a b c : list value) :
  well_typed sch a = true ->
  well_typed sch b = true ->
  well_typed sch c = true ->
  ((Bed_lt char_signed a b = true /\ Bed_lt char_signed b a = false /\ a <> b)
   \/ (Bed_lt char_signed a b = false /\ Bed_lt char_signed b a = true /\ a <> b)
   \/ (Bed_lt char_signed a b = false /\ Bed_lt char_signed b a = false /\ a = b))
  /\ (Bed_lt char_signed a b = true -> Bed_lt char_signed b c = true ->
      Bed_lt char_signed a c = true)
  /\ (Bed_lt char_signed a b = true <-> lex_lt char_signed a b).
Proof.
  intros Ha Hb Hc. unfold Bed_lt. split; [|split].
  - destruct (tless a b) eqn:Eab.
    + left. split; [done|]. split; [by apply tuple_less_asym|].
      intros ->. by rewrite tuple_less_irrefl in Eab.
    + destruct (tless b a) eqn:Eba.
      * right; left. split; [done|]. split; [done|].
        intros ->. by rewrite tuple_less_irrefl in Eba.
      * right; right. eauto using tuple_less_total.
  - by apply (tuple_less_trans sch).
  - split; [by apply (tuple_less_lex sch) | apply lex_tuple_less].
Qed.

End OrderingFacts.

Lemma Bed_lt_strict_total_order_witness :
  let a := [VString (lit "chr1"); VInt32 100; VInt32 200] in
  let b := [VString (lit "chr1"); VInt32 150; VInt32 160] in
  let c := [VString (lit "chr10"); VInt32 (-5); VInt32 0] in
  ((Bed_lt true a b = true /\ Bed_lt true b a = false /\ a <> b)
   \/ (Bed_lt true a b = false /\ Bed_lt true b a = true /\ a <> b)
   \/ (Bed_lt true a b = false /\ Bed_lt true b a = false /\ a = b))
  /\ (Bed_lt true a b = true -> Bed_lt true b c = true -> Bed_lt true a c = true)
  /\ (Bed_lt true a b = true <-> lex_lt true a b).
Proof.
  intros a b c.
  apply (Bed_lt_strict_total_order true canonical a b c); reflexivity.
Defined.


(** * Further properties of the record *)

(** ** The typing of [data] is kept *)

Lemma stoi_in_int32 tok n : stoi tok = Ok n -> in_int32 n = true.
Proof.
  unfold stoi. destruct (strtol_sign (skip_spaces tok)) as [neg s].
  destruct (strtol_digits s) as [m|]; [|done].
  destruct (in_int32 (if neg then (- m)%Z else m)) eqn:E; [|done].
  by intros [= <-].
Qed.

Lemma convert_has_type t tok v : convert t tok = Ok v -> has_type v t = true.
Proof.
  destruct t; cbn [convert].
  - by intros [= <-].
  - destruct (stoi tok) as [n|e] eqn:E; [|done].
    intros [= <-]. cbn [has_type]. by apply stoi_in_int32 in E.
  - by intros [= <-].
Qed.

Lemma well_typed_app s1 : forall d1 s2 d2,
  well_typed s1 d1 = true -> well_typed s2 d2 = true ->
  well_typed (s1 ++ s2) (d1 ++ d2) = true.
Proof.
  induction s1 as [|t s1 IH]; intros [|v d1] s2 d2; cbn [well_typed app]; try done.
  intros [Hv H1]%andb_true_iff H2. rewrite Hv. cbn [andb]. by apply IH.
Qed.

Lemma well_typed_drop sch : forall k data,
  well_typed sch data = true -> well_typed (drop k sch) (drop k data) = true.
Proof.
  induction sch as [|t sch IH]; intros [|k] [|v data]; cbn [well_typed drop]; try done.
  intros [_ H]%andb_true_iff. by apply IH.
Qed.

Lemma convert_all_typed tys : forall N rhs,
  well_typed (take (length (convert_all tys N rhs).1) tys) (convert_all tys N rhs).1
  = true.
Proof.
  induction tys as [|t tys IH]; intros N rhs; cbn [convert_all]; [done|].
  destruct (rhs !! N) as [tok|]; [|done].
  destruct (convert t tok) as [v|e] eqn:Ev; [|done].
  specialize (IH (S N) rhs).
  destruct (convert_all tys (S N) rhs) as [ws st]. cbn [fst length take well_typed] in *.
  by rewrite (convert_has_type _ _ _ Ev), IH.
Qed.

Lemma to_tuple_keeps_type sch rhs i :
  well_typed sch i = true -> well_typed sch (to_tuple sch rhs i).1 = true.
Proof.
  intros Hi. unfold to_tuple. rewrite to_tuple_from_inserts. cbn [fst].
  pose proof (convert_all_length sch 0 rhs) as Hlen.
  pose proof (well_typed_length _ _ Hi) as Hli.
  rewrite list_inserts_prefix by lia.
  rewrite <- (take_drop (length (convert_all sch 0 rhs).1) sch) at 1.
  apply well_typed_app; [apply convert_all_typed | by apply well_typed_drop].
Qed.




(** ** What a successful parse leaves in the record *)

Lemma to_tuple_Done_values sch rhs i i' :
  well_typed sch i = true ->
  to_tuple sch rhs i = (i', Done) ->
  convert_all sch 0 rhs = (i', Done).
Proof.
  intros Hi. unfold to_tuple. rewrite to_tuple_from_inserts.
  destruct (convert_all sch 0 rhs) as [vs st] eqn:E. cbn [fst snd].
  intros [= Hi' ->]. f_equal.
  pose proof (convert_all_Done_length _ _ _ _ E) as Hlen.
  pose proof (well_typed_length _ _ Hi) as Hli.
  rewrite list_inserts_prefix in Hi' by lia.
  rewrite drop_ge, app_nil_r in Hi' by lia. done.
Qed.

Lemma convert_all_Done_to_tuple sch rhs i vs :
  well_typed sch i = true ->
  convert_all sch 0 rhs = (vs, Done) ->
  to_tuple sch rhs i = (vs, Done).
Proof.
  intros Hi E. unfold to_tuple. rewrite to_tuple_from_inserts, E. cbn [fst snd].
  pose proof (convert_all_Done_length _ _ _ _ E) as Hlen.
  pose proof (well_typed_length _ _ Hi) as Hli.
  rewrite list_inserts_prefix by lia.
  by rewrite drop_ge, app_nil_r by lia.
Qed.

(** X2: when [to_tuple] returns, every field has been overwritten:
    [get_data<N>] gives the conversion of token [N] for each position
    of the schema, and nothing of the record's former content is left,
    so that the same tokens give the same record from any target. *)
Theorem to_tuple_overwrites_all (sch : list ftype) (rhs : list cstring)
    (i i' : list value) :
  well_typed sch i = true ->
  to_tuple sch rhs i = (i', Done) ->
  (forall N t, sch !! N = Some t ->
     exists tok v, rhs !! N = Some tok /\ convert t tok = Ok v
                   /\ get_data N i' = Some v)
  /\ (forall i2, well_typed sch i2 = true -> to_tuple sch rhs i2 = (i', Done)).
Proof.
  intros Hi H. pose proof (to_tuple_Done_values _ _ _ _ Hi H) as E. split.
  - intros N t Ht.
    pose proof (convert_all_Done_length _ _ _ _ E) as Hlen.
    destruct (lookup_lt_is_Some_2 i' N) as [v Hv].
    { rewrite Hlen. by eapply lookup_lt_Some. }
    destruct (convert_all_Done_lookup _ _ _ _ E N v Hv) as (t' & tok & Ht' & Htok & Hc).
    rewrite Ht in Ht'. injection Ht' as <-. by exists tok, v.
  - intros i2 Hi2. by apply convert_all_Done_to_tuple.
Qed.

Lemma to_tuple_overwrites_all_witness :
  (forall N t, canonical !! N = Some t ->
     exists tok v, [lit "chrY"; lit " 12"; lit "-3x"] !! N = Some tok
                   /\ convert t tok = Ok v
                   /\ get_data N [VString (lit "chrY"); VInt32 12; VInt32 (-3)] = Some v)
  /\ (forall i2, well_typed canonical i2 = true ->
        to_tuple canonical [lit "chrY"; lit " 12"; lit "-3x"] i2
        = ([VString (lit "chrY"); VInt32 12; VInt32 (-3)], Done)).
Proof.
  apply (to_tuple_overwrites_all canonical [lit "chrY"; lit " 12"; lit "-3x"]
           (Bed_default canonical)); reflexivity.
Defined.

(** ** Texts without a separator *)

Lemma put_forallb (p : ascii -> bool) fuel :
  (forall d, (0 <= d < 10)%Z -> p (digit_char d) = true) ->
  forall n finish,
    forallb p finish = true -> forallb p (lcast_put_unsigned fuel n finish) = true.
Proof.
  intros Hp. induction fuel as [|fuel IH]; intros n finish Hf;
    cbn [lcast_put_unsigned]; [done|].
  pose proof (Z.mod_pos_bound n 10 ltac:(lia)) as Hm.
  assert (forallb p (digit_char (n mod 10) :: finish) = true) as Hf'.
  { cbn [forallb]. by rewrite Hp, Hf. }
  destruct (n / 10 =? 0)%Z; [done|]. by apply IH.
Qed.

Lemma lexical_cast_int_forallb (p : ascii -> bool) n :
  (forall d, (0 <= d < 10)%Z -> p (digit_char d) = true) ->
  p "-"%char = true ->
  forallb p (lexical_cast_int n) = true.
Proof.
  intros Hp Hm. unfold lexical_cast_int. destruct (n <? 0)%Z.
  - cbn [forallb]. rewrite Hm. cbn [andb]. by apply put_forallb.
  - by apply put_forallb.
Qed.

Lemma lexical_cast_int_no_tab n : no_tab (lexical_cast_int n) = true.
Proof.
  apply lexical_cast_int_forallb; [|reflexivity].
  intros d Hd. digit_cases d.
Qed.

Lemma lexical_cast_int_no_nl n : no_nl (lexical_cast_int n) = true.
Proof.
  apply lexical_cast_int_forallb; [|reflexivity].
  intros d Hd. digit_cases d.
Qed.

Lemma forallb_lookup {A} (p : A -> bool) (l : list A) j x :
  forallb p l = true -> l !! j = Some x -> p x = true.
Proof.
  revert j. induction l as [|y l IH]; intros [|j]; cbn [forallb]; try done.
  - by intros [Hy _]%andb_true_iff [= <-].
  - intros [_ Hl]%andb_true_iff. by apply IH.
Qed.

Lemma split_no_tab s : forallb no_tab (split is_tab s) = true.
Proof.
  induction s as [|c s IH]; [done|]. cbn [split].
  destruct (is_tab c) eqn:Hc; [done|].
  destruct (split is_tab s) as [|tok toks]; cbn [forallb no_tab] in *.
  - by rewrite Hc.
  - by rewrite Hc.
Qed.

Lemma convert_no_tab t tok v :
  no_tab tok = true -> convert t tok = Ok v -> no_tab (lexical_cast v) = true.
Proof.
  intros Htok. destruct t; cbn [convert].
  - by intros [= <-].
  - destruct (stoi tok) as [n|e]; [|done]. intros [= <-].
    apply lexical_cast_int_no_tab.
  - intros [= <-]. destruct tok as [|c tok]; [done|].
    cbn [no_tab forallb] in Htok. apply andb_true_iff in Htok as [Hc _].
    cbn [hd lexical_cast no_tab forallb]. by rewrite Hc.
Qed.

Lemma convert_all_tab_free tys : forall N rhs,
  forallb no_tab rhs = true -> tab_free (convert_all tys N rhs).1 = true.
Proof.
  induction tys as [|t tys IH]; intros N rhs Hrhs; cbn [convert_all]; [done|].
  destruct (rhs !! N) as [tok|] eqn:Etok; [|done].
  destruct (convert t tok) as [v|e] eqn:Ev; [|done].
  specialize (IH (S N) rhs Hrhs).
  destruct (convert_all tys (S N) rhs) as [ws st]. cbn [fst] in *.
  unfold tab_free in *. cbn [forallb]. rewrite IH.
  by rewrite (convert_no_tab _ _ _ (forallb_lookup _ _ _ _ Hrhs Etok) Ev).
Qed.

(** The text of a tab-free record parses back into the record. *)
Lemma to_tuple_join_texts sch r i :
  r <> [] -> well_typed sch r = true -> tab_free r = true ->
  well_typed sch i = true ->
  to_tuple sch (split is_tab (join TAB (map lexical_cast r))) i = (r, Done).
Proof.
  intros Hne Hr Htab Hi.
  rewrite split_join; [| by destruct r | by apply tab_free_texts].
  apply convert_all_Done_to_tuple; [done|].
  apply (convert_all_lexical_cast sch r [] Hr).
Qed.

(** X3: a record that [to_tuple] has read from the tokens of a line is
    in canonical form: its text exists, and parsing the text gives the
    same record again, whatever the line looked like (white space,
    signs, leading zeros and trailing characters in integer tokens,
    surplus characters in character tokens). *)
Theorem parsed_record_is_canonical (sch : list ftype) (line : cstring)
    (i r : list value) :
  well_typed sch i = true ->
  to_tuple sch (split (is_any_of [TAB]) line) i = (r, Done) ->
  r <> [] ->
  exists s, to_string r = Some s
    /\ forall i2, well_typed sch i2 = true ->
         to_tuple sch (split (is_any_of [TAB]) s) i2 = (r, Done).
Proof.
  intros Hi H Hne. change (is_any_of [TAB]) with is_tab in *.
  pose proof (to_tuple_keeps_type sch (split is_tab line) i Hi) as Hr.
  rewrite H in Hr. cbn [fst] in Hr.
  pose proof (to_tuple_Done_values _ _ _ _ Hi H) as E.
  pose proof (convert_all_tab_free sch 0 _ (split_no_tab line)) as Htab.
  rewrite E in Htab. cbn [fst] in Htab.
  exists (join TAB (map lexical_cast r)). split; [by apply to_string_join|].
  intros i2 Hi2. by apply to_tuple_join_texts.
Qed.

Lemma parsed_record_is_canonical_witness :
  exists s, to_string [VString (lit "chr1"); VInt32 7; VInt32 (-12)] = Some s
    /\ forall i2, well_typed canonical i2 = true ->
         to_tuple canonical (split (is_any_of [TAB]) s) i2
         = ([VString (lit "chr1"); VInt32 7; VInt32 (-12)], Done).
Proof.
  apply (parsed_record_is_canonical canonical
           (lit "chr1" ++ [TAB] ++ lit " +007" ++ [TAB] ++ lit "-12abc" ++ [TAB] ++ lit "x")
           (Bed_default canonical));
    [reflexivity | reflexivity | discriminate].
Defined.

(** X4: on the tab-free records of one schema [to_string] is
    injective: two records with the same text are the same record. *)
Theorem to_string_injective (sch : list ftype) (r1 r2 : list value) :
  well_typed sch r1 = true -> tab_free r1 = true ->
  well_typed sch r2 = true -> tab_free r2 = true ->
  to_string r1 = to_string r2 ->
  r1 = r2.
Proof.
  intros H1 T1 H2 T2 Heq.
  destruct r1 as [|v1 r1], r2 as [|v2 r2].
  - done.
  - destruct sch; discriminate.
  - destruct sch; discriminate.
  - rewrite !to_string_join in Heq by done. apply (inj Some) in Heq.
    pose proof (to_tuple_join_texts sch (v1 :: r1) (v2 :: r2) ltac:(done) H1 T1 H2) as P1.
    pose proof (to_tuple_join_texts sch (v2 :: r2) (v2 :: r2) ltac:(done) H2 T2 H2) as P2.
    rewrite Heq in P1. rewrite P1 in P2. congruence.
Qed.

Lemma to_string_injective_witness :
  [VString (lit "chr1"); VInt32 100; VInt32 200]
  = [VString (lit "chr1"); VInt32 100; VInt32 200].
Proof.
  apply (to_string_injective canonical); reflexivity.
Defined.

(** ** From a line to its text *)

Lemma join_split s : join TAB (split is_tab s) = s.
Proof.
  induction s as [|c s IH]; [done|]. cbn [split].
  pose proof (split_not_nil is_tab s) as Hne.
  destruct (is_tab c) eqn:Hc.
  - destruct (split is_tab s) as [|tok toks] eqn:E; [done|].
    change (join TAB ([] :: tok :: toks)) with (TAB :: join TAB (tok :: toks)).
    rewrite IH. f_equal.
    unfold is_tab, is_any_of in Hc. cbn [existsb] in Hc. rewrite orb_false_r in Hc.
    symmetry. by apply Ascii.eqb_eq.
  - destruct (split is_tab s) as [|tok toks] eqn:E; [done|].
    rewrite <- IH. by destruct toks.
Qed.

Lemma convert_all_text tys : forall N rhs,
  forallb is_text tys = true -> N + length tys <= length rhs ->
  convert_all tys N rhs = (map VString (take (length tys) (drop N rhs)), Done).
Proof.
  induction tys as [|t tys IH]; intros N rhs Ht Hlen; [done|].
  cbn [forallb] in Ht. apply andb_true_iff in Ht as [Ht Htys].
  cbn [length] in Hlen. cbn [convert_all].
  destruct (lookup_lt_is_Some_2 rhs N ltac:(lia)) as [tok Htok]. rewrite Htok.
  destruct t; try done. cbn [convert].
  rewrite IH by (done || lia).
  rewrite (drop_S _ _ _ Htok). reflexivity.
Qed.

(** X5: under a schema of text fields only, a line with exactly
    [field_count] tokens is read without error, each token bound
    unchanged, and the text of the record read is the line itself. *)
Theorem text_line_roundtrip (sch : list ftype) (line : cstring) (i : list value) :
  forallb is_text sch = true ->
  well_typed sch i = true ->
  length (split (is_any_of [TAB]) line) = length sch ->
  to_tuple sch (split (is_any_of [TAB]) line) i
  = (map VString (split (is_any_of [TAB]) line), Done)
  /\ to_string (map VString (split (is_any_of [TAB]) line)) = Some line.
Proof.
  intros Ht Hi Hlen. change (is_any_of [TAB]) with is_tab in *. split.
  - apply convert_all_Done_to_tuple; [done|].
    rewrite convert_all_text by (done || lia).
    rewrite drop_0, <- Hlen, firstn_all. reflexivity.
  - pose proof (split_not_nil is_tab line) as Hne.
    rewrite to_string_join by (by destruct (split is_tab line)).
    rewrite map_map. cbn [lexical_cast]. rewrite map_id. by rewrite join_split.
Qed.

Lemma text_line_roundtrip_witness :
  to_tuple [TString; TString] (split (is_any_of [TAB]) (lit "chr1" ++ [TAB] ++ lit " x "))
    (Bed_default [TString; TString])
  = (map VString (split (is_any_of [TAB]) (lit "chr1" ++ [TAB] ++ lit " x ")), Done)
  /\ to_string (map VString (split (is_any_of [TAB]) (lit "chr1" ++ [TAB] ++ lit " x ")))
     = Some (lit "chr1" ++ [TAB] ++ lit " x ").
Proof.
  apply (text_line_roundtrip [TString; TString]); reflexivity.
Defined.

(** ** Lines of a stream *)


Lemma read_line_nl line rest :
  no_nl line = true -> read_line (line ++ NL :: rest) = (line, Some rest).
Proof.
  induction line as [|c line IH]; cbn [no_nl forallb app read_line].
  - intros _. by rewrite Ascii.eqb_refl.
  - intros [Hc Hline]%andb_true_iff. apply negb_true_iff in Hc.
    unfold is_nl in Hc. rewrite Hc. by rewrite (IH Hline).
Qed.

Lemma read_line_eof line :
  no_nl line = true -> read_line line = (line, None).
Proof.
  induction line as [|c line IH]; cbn [no_nl forallb read_line]; [done|].
  intros [Hc Hline]%andb_true_iff. apply negb_true_iff in Hc.
  unfold is_nl in Hc. rewrite Hc. by rewrite (IH Hline).
Qed.

Lemma getline_line rhs line rest :
  good rhs = true -> unread rhs = line ++ NL :: rest -> no_nl line = true ->
  getline rhs = (mk_istream rest false false, Some line).
Proof.
  intros Hg Hu Hline. unfold getline. rewrite Hg, Hu, (read_line_nl _ _ Hline).
  by destruct line.
Qed.

(** X6: [get_obj] on a good stream takes exactly one line off it, the
    characters up to the first newline and the newline, whatever the
    parse of the line does: also when [stoi] throws, the stream is
    past the line and still good. *)
Theorem get_obj_takes_one_line (sch : list ftype) (rhs : istream)
    (line rest : cstring) (i : list value) :
  good rhs = true ->
  unread rhs = line ++ NL :: rest ->
  no_nl line = true ->
  get_obj sch rhs i
  = (mk_istream rest false false,
     (to_tuple sch (split (is_any_of [TAB]) line) i).1,
     (to_tuple sch (split (is_any_of [TAB]) line) i).2).
Proof.
  intros Hg Hu Hline. unfold get_obj.
  rewrite (getline_line rhs line rest Hg Hu Hline).
  by destruct (to_tuple sch (split (is_any_of [TAB]) line) i).
Qed.

Lemma get_obj_takes_one_line_witness :
  get_obj canonical
    (mk_istream (lit "chr1" ++ [TAB] ++ lit "x" ++ [TAB] ++ lit "2" ++ [NL]
                 ++ lit "chr2" ++ [TAB] ++ lit "3" ++ [TAB] ++ lit "4" ++ [NL])
       false false)
    (Bed_default canonical)
  = (mk_istream (lit "chr2" ++ [TAB] ++ lit "3" ++ [TAB] ++ lit "4" ++ [NL]) false false,
     [VString (lit "chr1"); VInt32 0; VInt32 0], Threw invalid_argument).
Proof.
  apply (get_obj_takes_one_line canonical _
           (lit "chr1" ++ [TAB] ++ lit "x" ++ [TAB] ++ lit "2")); reflexivity.
Defined.

(** X7: a last line that no newline ends is still read: [eofbit] is
    set and [failbit] is not, so the caller's test of the stream
    succeeds; only the call after it finds nothing, sets [failbit] and
    leaves the record as it is. *)
Theorem get_obj_unterminated_last_line (sch : list ftype) (rhs : istream)
    (line : cstring) (i : list value) :
  good rhs = true ->
  unread rhs = line ->
  line <> [] ->
  no_nl line = true ->
  get_obj sch rhs i
  = (mk_istream [] true false,
     (to_tuple sch (split (is_any_of [TAB]) line) i).1,
     (to_tuple sch (split (is_any_of [TAB]) line) i).2)
  /\ forall i', get_obj sch (mk_istream [] true false) i'
                = (mk_istream [] true true, i', Done).
Proof.
  intros Hg Hu Hne Hline. split; [|done].
  unfold get_obj, getline. rewrite Hg, Hu, read_line_eof by done.
  destruct line as [|c line]; [done|].
  by destruct (to_tuple sch (split (is_any_of [TAB]) (c :: line)) i).
Qed.

Lemma get_obj_unterminated_last_line_witness :
  get_obj canonical
    (mk_istream (lit "chr1" ++ [TAB] ++ lit "1" ++ [TAB] ++ lit "2") false false)
    (Bed_default canonical)
  = (mk_istream [] true false, [VString (lit "chr1"); VInt32 1; VInt32 2], Done)
  /\ forall i', get_obj canonical (mk_istream [] true false) i'
                = (mk_istream [] true true, i', Done).
Proof.
  apply (get_obj_unterminated_last_line canonical _
           (lit "chr1" ++ [TAB] ++ lit "1" ++ [TAB] ++ lit "2"));
    [reflexivity | reflexivity | discriminate | reflexivity].
Defined.




(** ** Writing and reading back *)

Lemma dump_cons rhs r c :
  dump rhs (r :: c)
  = match to_string r with
    | Some t => dump (rhs ++ t ++ [NL]) c
    | None => None
    end.
Proof.
  unfold dump, ostream_put. cbn [dump_loop].
  destruct (to_string r) as [t|]; [|done].
  rewrite !dump_loop_concat. destruct (mapM to_string c) as [ts|]; [|done].
  cbn [app]. by rewrite <- !app_assoc.
Qed.

Lemma dump_prefix rhs c :
  dump rhs c
  = match dump [] c with
    | Some o => Some (rhs ++ o)
    | None => None
    end.
Proof.
  unfold dump, ostream_put. by destruct (dump_loop c []).
Qed.

Lemma no_nl_app s1 s2 : no_nl (s1 ++ s2) = no_nl s1 && no_nl s2.
Proof. unfold no_nl. apply forallb_app. Qed.

Lemma no_nl_join toks :
  forallb no_nl toks = true -> no_nl (join TAB toks) = true.
Proof.
  induction toks as [|t toks IH]; [done|].
  cbn [forallb]. intros [Ht Hall]%andb_true_iff.
  destruct toks as [|u toks]; [done|].
  change (join TAB (t :: u :: toks)) with (t ++ TAB :: join TAB (u :: toks)).
  rewrite no_nl_app, Ht. cbn [andb]. cbn [no_nl forallb]. by apply IH.
Qed.

Lemma nl_free_texts data :
  nl_free data = true -> forallb no_nl (map lexical_cast data) = true.
Proof.
  unfold nl_free. induction data as [|v data IH]; [done|].
  cbn [forallb map]. intros [-> Hd]%andb_true_iff. auto.
Qed.

Lemma get_obj_line_of_texts sch r i rest :
  r <> [] -> well_typed sch r = true -> tab_free r = true -> nl_free r = true ->
  well_typed sch i = true ->
  get_obj sch (mk_istream (join TAB (map lexical_cast r) ++ NL :: rest) false false) i
  = (mk_istream rest false false, r, Done).
Proof.
  intros Hne Hr Htab Hnl Hi. unfold get_obj.
  rewrite (getline_line _ (join TAB (map lexical_cast r)) rest);
    [| done | done | by apply no_nl_join, nl_free_texts].
  change (is_any_of [TAB]) with is_tab.
  by rewrite to_tuple_join_texts.
Qed.

(** X9: what [dump] has written, [get_obj] reads back record by
    record.  From a stream that holds the dump of [r :: c], one call
    reads [r], with no error, and leaves the stream good and holding
    the dump of [c], when no field of [r] has a tab or a newline in
    its text. *)
Theorem get_obj_reads_dump (sch : list ftype) (r i : list value)
    (c : list (list value)) (out : cstring) :
  well_typed sch r = true ->
  tab_free r = true ->
  nl_free r = true ->
  well_typed sch i = true ->
  dump [] (r :: c) = Some out ->
  exists out', dump [] c = Some out'
    /\ get_obj sch (mk_istream out false false) i
       = (mk_istream out' false false, r, Done).
Proof.
  intros Hr Htab Hnl Hi Hd. rewrite dump_cons in Hd.
  destruct r as [|v r]; [done|].
  rewrite to_string_join in Hd by done.
  rewrite dump_prefix in Hd. destruct (dump [] c) as [out'|]; [|done].
  assert (out = join TAB (map lexical_cast (v :: r)) ++ NL :: out') as ->.
  { injection Hd as <-. cbn [app]. by rewrite <- app_assoc. }
  exists out'. split; [done|]. by apply get_obj_line_of_texts.
Qed.

Lemma get_obj_reads_dump_witness :
  exists out', dump [] [[VString (lit "b"); VInt32 2]] = Some out'
    /\ get_obj [TString; TInt32]
         (mk_istream (lit "a" ++ [TAB] ++ lit "-1" ++ [NL]
                      ++ lit "b" ++ [TAB] ++ lit "2" ++ [NL]) false false)
         (Bed_default [TString; TInt32])
       = (mk_istream out' false false, [VString (lit "a"); VInt32 (-1)], Done).
Proof.
  apply (get_obj_reads_dump [TString; TInt32] [VString (lit "a"); VInt32 (-1)]
           (Bed_default [TString; TInt32]) [[VString (lit "b"); VInt32 2]]);
    reflexivity.
Defined.

Lemma dump_loop_app c1 : forall c2 s,
  dump_loop (c1 ++ c2) s
  = match dump_loop c1 s with
    | Some s' => dump_loop c2 s'
    | None => None
    end.
Proof.
  induction c1 as [|r c1 IH]; intros c2 s; cbn [app dump_loop]; [done|].
  destruct (to_string r) as [t|]; [|done]. apply IH.
Qed.

(** X10: [dump] composes.  Writing [c1 ++ c2] is writing [c1] and
    then [c2] to the same stream, and writing one record is
    [operator<<] followed by a newline: a batch is the records written
    one by one, each with its newline. *)
Theorem dump_app (rhs : cstring) (c1 c2 : list (list value)) (i : list value) :
  dump rhs (c1 ++ c2)
  = match dump rhs c1 with
    | Some o => dump o c2
    | None => None
    end
  /\ dump rhs (i :: c2)
     = match write_one rhs i with
       | Some o => dump (o ++ [NL]) c2
       | None => None
       end.
Proof.
  split.
  - unfold dump, ostream_put. rewrite dump_loop_app.
    destruct (dump_loop c1 []) as [s1|]; [|done].
    rewrite !dump_loop_concat. destruct (mapM to_string c2) as [ts|]; [|done].
    cbn [app]. by rewrite app_assoc.
  - rewrite dump_cons. unfold write_one, ostream_put.
    destruct (to_string i) as [t|]; [|done]. by rewrite app_assoc.
Qed.

Lemma count_nl_app s1 s2 : count_nl (s1 ++ s2) = count_nl s1 + count_nl s2.
Proof. unfold count_nl. by rewrite List.filter_app, length_app. Qed.

Lemma count_nl_no_nl s : no_nl s = true -> count_nl s = 0.
Proof.
  unfold count_nl, no_nl. induction s as [|c s IH]; [done|].
  cbn [forallb List.filter]. intros [Hc Hs]%andb_true_iff.
  apply negb_true_iff in Hc. rewrite Hc. auto.
Qed.

(** X11: [dump] writes one line for each record: when no field of the
    records has a newline in its text, the number of newlines on the
    stream grows by the number of records. *)
Theorem dump_one_line_each (c : list (list value)) : forall (rhs out : cstring),
  forallb nl_free c = true ->
  dump rhs c = Some out ->
  count_nl out = count_nl rhs + length c.
Proof.
  induction c as [|r c IH]; intros rhs out Hnl Hd.
  - unfold dump, ostream_put in Hd. cbn [dump_loop] in Hd. injection Hd as <-.
    rewrite app_nil_r. cbn [length]. lia.
  - cbn [forallb] in Hnl. apply andb_true_iff in Hnl as [Hr Hc].
    rewrite dump_cons in Hd. destruct r as [|v r]; [done|].
    rewrite to_string_join in Hd by done.
    rewrite (IH _ _ Hc Hd), !count_nl_app.
    rewrite (count_nl_no_nl _ (no_nl_join _ (nl_free_texts _ Hr))).
    cbn [length]. change (count_nl [NL]) with 1. lia.
Qed.

Lemma dump_one_line_each_witness :
  count_nl (lit "#" ++ [NL] ++ lit "a" ++ [TAB] ++ lit "1" ++ [NL]
            ++ lit "b" ++ [TAB] ++ lit "2" ++ [NL])
  = count_nl (lit "#" ++ [NL]) + 2.
Proof.
  apply (dump_one_line_each [[VString (lit "a"); VInt32 1]; [VString (lit "b"); VInt32 2]]
           (lit "#" ++ [NL])); reflexivity.
Defined.

(** ** Short lines *)

Lemma convert_all_Done_tokens tys : forall N rhs vs,
  convert_all tys N rhs = (vs, Done) -> tys <> [] -> N + length tys <= length rhs.
Proof.
  induction tys as [|t tys IH]; intros N rhs vs; [done|]. cbn [convert_all length].
  destruct (rhs !! N) as [tok|] eqn:Etok; [|done].
  destruct (convert t tok) as [v|e]; [|done].
  destruct (convert_all tys (S N) rhs) as [ws st] eqn:E.
  intros [= <- ->] _. apply lookup_lt_Some in Etok.
  destruct tys as [|t' tys]; [simpl; lia|].
  specialize (IH (S N) rhs ws E ltac:(done)). simpl in *. lia.
Qed.

(** X12: [to_tuple] returns only when there is a token for every
    field: with fewer tokens than fields the call never ends normally,
    it is left by an exception of [stoi] or it indexes the token
    vector past its end. *)
Theorem to_tuple_Done_enough_tokens (sch : list ftype) (rhs : list cstring)
    (i i' : list value) :
  to_tuple sch rhs i = (i', Done) -> length sch <= length rhs.
Proof.
  unfold to_tuple. rewrite to_tuple_from_inserts.
  destruct (convert_all sch 0 rhs) as [vs st] eqn:E. cbn [fst snd].
  intros [= _ ->]. destruct sch as [|t sch]; [simpl; lia|].
  by apply (convert_all_Done_tokens _ _ _ _ E).
Qed.

Lemma to_tuple_Done_enough_tokens_witness :
  length canonical <= length [lit "chr1"; lit "1"; lit "2"; lit "extra"].
Proof.
  apply (to_tuple_Done_enough_tokens canonical
           [lit "chr1"; lit "1"; lit "2"; lit "extra"] (Bed_default canonical)
           [VString (lit "chr1"); VInt32 1; VInt32 2]).
  reflexivity.
Defined.
